(** * northeast-wind: the trip cart store, the itinerary formatter and the
    great-circle distance of the map.

    Shallow embedding of
    - [src/stores/trip-cart.ts] (the nanostores atoms, the computed views and
      the actions, with their persistence into [localStorage]),
    - [src/lib/hub-utils.ts] ([fmtDrive]) and the WhatsApp formatter
      ([formatItineraryForWhatsApp]),
    - the [haversine] helper of the map component.

    Conventions of the embedding.
    - A JavaScript string is a [string]; [===] on strings is [String.eqb];
      a string is truthy exactly when it is not empty.
    - The numbers of the cart (drive times, counts, ratings) are modelled by
      [Z]: the content schema stores drive times as integers.  Fractional
      values and integers beyond the range that JavaScript prints in plain
      decimal notation are outside the model.  An addition of two such
      numbers is the addition of [Z] as long as the result stays within
      [2 ^ 53] in size; a property that depends on the order of the
      additions assumes that bound ([within_safe_integers]).
    - [toLowerCase] lowers the letters [A-Z] and leaves every other byte:
      it is [String.prototype.toLowerCase] on ASCII text.
    - A JavaScript [Map] is an association list in insertion order; a plain
      object used as a dictionary is the list of its own properties in
      creation order, which [Object_entries] enumerates as [Object.entries]
      does.
    - [localStorage] is a finite map from keys to strings; [setItem] may throw.
    - Statements run in a small monad that threads the store and the storage
      and carries JavaScript's completion (normal or thrown). *)

From Stdlib Require Import String Ascii List ZArith Lia Bool Sorted Permutation Reals.
From Stdlib Require Import Lra.
From stdpp Require Import gmap strings pretty.
Import ListNotations.

Local Open Scope string_scope.
Local Open Scope list_scope.
Local Open Scope Z_scope.

(* ------------------------------------------------------------------ *)
(** ** Types *)
(* ------------------------------------------------------------------ *)

Record LogisticsEntry := mkLogisticsEntry {
  hub_name : string;
  hub_type : string;
  distance_km : Z;
  drive_time_mins : Z
}.

Record CartPlace := mkCartPlace {
  id : string;
  name : string;
  category : string;
  subCategory : string;
  state : string;
  googleRating : option Z;
  image : option string;
  logistics : list LogisticsEntry
}.

(** Truthiness of the two kinds of value the code tests with [if (v)]. *)
Definition truthy_string (s : string) : bool :=
  match s with EmptyString => false | String _ _ => true end.

Definition truthy_rating (r : option Z) : bool :=
  match r with None => false | Some n => negb (n =? 0) end.

(** Template-literal rendering of an integral number. *)
Definition num_to_string (n : Z) : string := pretty n.

(* ------------------------------------------------------------------ *)
(** ** hub-utils: [fmtDrive] *)
(* ------------------------------------------------------------------ *)

(** [45 -> "45 min"], [135 -> "2h 15m"]; [Math.floor (mins / 60)] is [Z.div]
    and [%] is the truncating remainder [Z.rem]. *)
Definition fmtDrive (mins : Z) : string :=
  if mins <? 60 then num_to_string mins +:+ " min"
  else
    let h := mins / 60 in
    let m := Z.rem mins 60 in
    if 0 <? m then num_to_string h +:+ "h " +:+ num_to_string m +:+ "m"
    else num_to_string h +:+ "h".

(* ------------------------------------------------------------------ *)
(** ** Computed views of the cart *)
(* ------------------------------------------------------------------ *)

Definition cartCount (items : list CartPlace) : Z := Z.of_nat (length items).

(** A [Map<string, number>]: keys in insertion order. *)
Definition JsMap := list (string * Z).

Fixpoint Map_get (m : JsMap) (k : string) : option Z :=
  match m with
  | [] => None
  | (k', v) :: m' => if String.eqb k' k then Some v else Map_get m' k
  end.

(** [m.set (k, v)]: an existing key keeps its position, a new key goes last. *)
Fixpoint Map_set (k : string) (v : Z) (m : JsMap) : JsMap :=
  match m with
  | [] => [(k, v)]
  | (k', v') :: m' =>
      if String.eqb k' k then (k', v) :: m' else (k', v') :: Map_set k v m'
  end.

(** [Array.prototype.sort (cmp)]: the sort is stable, and for a comparator
    that is a consistent ordering its result is determined; it is computed
    here by insertion, an element going in front of the first element it
    does not have to follow. *)
Section ArraySort.
Context {A : Type} (cmp : A -> A -> Z).

Fixpoint sort_insert (x : A) (l : list A) : list A :=
  match l with
  | [] => [x]
  | y :: l' => if cmp x y <=? 0 then x :: y :: l' else y :: sort_insert x l'
  end.

Definition Array_sort (l : list A) : list A :=
  List.fold_right sort_insert [] l.
End ArraySort.

Definition count_step (m : JsMap) (l : LogisticsEntry) : JsMap :=
  Map_set (hub_name l)
          (match Map_get m (hub_name l) with Some c => c | None => 0 end + 1) m.

Definition hubCount (items : list CartPlace) : JsMap :=
  List.fold_left (fun m item => List.fold_left count_step (logistics item) m)
                 items [].

(** [$availableHubs] *)
Definition availableHubs (items : list CartPlace) : list string :=
  List.map fst (Array_sort (fun a b => snd b - snd a) (hubCount items)).

(** [p.logistics.find ((x) => x.hub_name === hub)] *)
Definition hub_match (hub : string) (p : CartPlace) : option LogisticsEntry :=
  List.find (fun x => String.eqb (hub_name x) hub) (logistics p).

(** [$totalDriveMins] *)
Definition totalDriveMins (items : list CartPlace) (hub : string) : Z :=
  if negb (truthy_string hub) then 0
  else
    List.fold_left
      (fun total item =>
         match hub_match hub item with
         | Some l => total + drive_time_mins l
         | None => total
         end)
      items 0.

(** [$groupedByState]: the own properties of [groups] in creation order.
    [(groups[k] ??= []).push (item)] creates the property when [groups[k]] is
    nullish; for a key that [Object.prototype] already answers, the inherited
    value is not nullish and has no [push], so the call throws. *)
Definition Object_prototype_keys : list string :=
  [ "constructor"; "__defineGetter__"; "__defineSetter__"; "hasOwnProperty";
    "__lookupGetter__"; "__lookupSetter__"; "isPrototypeOf";
    "propertyIsEnumerable"; "toString"; "valueOf"; "__proto__";
    "toLocaleString" ].

Fixpoint group_push (k : string) (item : CartPlace)
    (groups : list (string * list CartPlace))
    : option (list (string * list CartPlace)) :=
  match groups with
  | [] =>
      if List.existsb (String.eqb k) Object_prototype_keys then None
      else Some [(k, [item])]
  | (k', ps) :: rest =>
      if String.eqb k' k then Some ((k', ps ++ [item]) :: rest)
      else option_map (cons (k', ps)) (group_push k item rest)
  end.

Definition groupedByState (items : list CartPlace)
    : option (list (string * list CartPlace)) :=
  List.fold_left
    (fun acc item =>
       match acc with
       | Some groups => group_push (state item) item groups
       | None => None
       end)
    items (Some []).

(** [Object.entries]: keys that are array indices come first, in ascending
    numeric order; the other keys follow in creation order. *)
Definition digit_value (c : ascii) : option Z :=
  let n := Z.of_nat (nat_of_ascii c) in
  if (48 <=? n) && (n <=? 57) then Some (n - 48) else None.

Definition array_index (k : string) : option Z :=
  let n :=
    List.fold_left
      (fun acc c =>
         match acc, digit_value c with
         | Some a, Some d => Some (10 * a + d)
         | _, _ => None
         end)
      (list_ascii_of_string k) (Some 0) in
  match k, n with
  | String _ _, Some v =>
      if String.eqb (num_to_string v) k && (v <? 4294967295) then Some v
      else None
  | _, _ => None
  end.

Definition index_entries {V : Type} (entries : list (string * V))
    : list (Z * (string * V)) :=
  List.flat_map
    (fun e => match array_index (fst e) with Some i => [(i, e)] | None => [] end)
    entries.

Definition Object_entries {V : Type} (entries : list (string * V))
    : list (string * V) :=
  List.map snd (Array_sort (fun a b => fst a - fst b) (index_entries entries))
  ++ List.filter
       (fun e => match array_index (fst e) with Some _ => false | None => true end)
       entries.

(* ------------------------------------------------------------------ *)
(** ** The WhatsApp itinerary formatter *)
(* ------------------------------------------------------------------ *)

Definition newline : string := String (ascii_of_nat 10) EmptyString.

(** [lines.join(sep)] *)
Fixpoint join (sep : string) (lines : list string) : string :=
  match lines with
  | [] => EmptyString
  | [l] => l
  | l :: rest => l +:+ sep +:+ join sep rest
  end.

(** The line of one place inside a state group. *)
Definition place_line (hub : string) (p : CartPlace) : string :=
  let line := "  - " +:+ name p +:+ " [" +:+ category p +:+ "]" in
  let line :=
    if truthy_rating (googleRating p) then
      match googleRating p with
      | Some r => line +:+ " " +:+ num_to_string r
      | None => line
      end
    else line in
  if truthy_string hub then
    match hub_match hub p with
    | Some l => line +:+ " | " +:+ fmtDrive (drive_time_mins l) +:+ " drive"
    | None => line
    end
  else line.

(** The lines pushed for one [state, places] pair of [Object.entries]. *)
Definition group_lines (hub : string) (g : string * list CartPlace) : list string :=
  let '(st, places) := g in
  ("*" +:+ st +:+ "* (" +:+ num_to_string (Z.of_nat (length places)) +:+ " places)")
    :: List.map (place_line hub) places ++ [EmptyString].

Definition title_line : string := "*My Northeast India Trip*".
Definition footer_line : string := "Planned with Northeast Explorer".

(** [entries] is the result of [Object.entries (groups)]. *)
Definition itinerary_lines
    (entries : list (string * list CartPlace)) (hub : string) (totalMins : Z)
    : list string :=
  [title_line; EmptyString]
  ++ (if truthy_string hub then
        [ "Starting from: " +:+ hub;
          "Total drive time: " +:+ fmtDrive totalMins +:+ " (approx.)";
          EmptyString ]
      else [])
  ++ List.concat (List.map (group_lines hub) entries)
  ++ [footer_line].

Definition formatItineraryForWhatsApp
    (groups : list (string * list CartPlace)) (hub : string) (totalMins : Z)
    : string :=
  join newline (itinerary_lines (Object_entries groups) hub totalMins).

(* ------------------------------------------------------------------ *)
(** ** The store: atoms, storage and the statement monad *)
(* ------------------------------------------------------------------ *)

(** The three atoms [$cartItems], [$selectedHub] and [$sidebarOpen]. *)
Record Store := mkStore {
  cartItems : list CartPlace;
  selectedHub : string;
  sidebarOpen : bool
}.

Definition initial_store : Store :=
  {| cartItems := []; selectedHub := EmptyString; sidebarOpen := false |}.

Record World := mkWorld {
  store : Store;
  localStorage : gmap string string
}.

(** What the browser decides: the JSON codec ([JSON_parse] answers [None]
    where [JSON.parse] throws) and whether a [setItem] is refused.  Of the
    codec only two facts of the language are used: the empty array is written
    as the two characters [[]], and these are read back as the empty array. *)
Record Platform := mkPlatform {
  JSON_stringify : list CartPlace -> string;
  JSON_parse : string -> option (list CartPlace);
  setItem_throws : gmap string string -> string -> string -> bool;
  JSON_stringify_nil : JSON_stringify [] = "[]";
  JSON_parse_nil : JSON_parse "[]" = Some []
}.

(** [P] with [refuses] deciding which writes throw. *)
Definition with_refusals (P : Platform)
    (refuses : gmap string string -> string -> string -> bool) : Platform :=
  {| JSON_stringify := JSON_stringify P;
     JSON_parse := JSON_parse P;
     setItem_throws := refuses;
     JSON_stringify_nil := JSON_stringify_nil P;
     JSON_parse_nil := JSON_parse_nil P |}.

Definition never_refuses : gmap string string -> string -> string -> bool :=
  fun _ _ _ => false.

Inductive Exn := QuotaExceededError | SyntaxError | TypeError.

Inductive Completion (A : Type) :=
| Normal (a : A)
| Throw (e : Exn).
Arguments Normal {A} a.
Arguments Throw {A} e.

(** A statement: it ends normally or throws, and the effects it had before
    throwing stay. *)
Definition Js (A : Type) : Type := World -> Completion A * World.

Definition ret {A} (a : A) : Js A := fun w => (Normal a, w).

Definition bind {A B} (c : Js A) (k : A -> Js B) : Js B :=
  fun w =>
    match c w with
    | (Normal a, w') => k a w'
    | (Throw e, w') => (Throw e, w')
    end.

Definition throw {A} (e : Exn) : Js A := fun w => (Throw e, w).

(** [try { body } catch { handler }] *)
Definition try_catch {A} (body : Js A) (handler : Exn -> Js A) : Js A :=
  fun w =>
    match body w with
    | (Normal a, w') => (Normal a, w')
    | (Throw e, w') => handler e w'
    end.

#[global] Instance Js_ret : MRet Js := @ret.
#[global] Instance Js_bind : MBind Js := fun A B k c => bind c k.

Definition get_store : Js Store := fun w => (Normal (store w), w).

Definition set_cartItems (items : list CartPlace) : Js unit :=
  fun w =>
    (Normal tt,
     {| store := {| cartItems := items;
                    selectedHub := selectedHub (store w);
                    sidebarOpen := sidebarOpen (store w) |};
        localStorage := localStorage w |}).

Definition set_selectedHub (hub : string) : Js unit :=
  fun w =>
    (Normal tt,
     {| store := {| cartItems := cartItems (store w);
                    selectedHub := hub;
                    sidebarOpen := sidebarOpen (store w) |};
        localStorage := localStorage w |}).

Definition set_sidebarOpen (b : bool) : Js unit :=
  fun w =>
    (Normal tt,
     {| store := {| cartItems := cartItems (store w);
                    selectedHub := selectedHub (store w);
                    sidebarOpen := b |};
        localStorage := localStorage w |}).

Definition STORAGE_KEY : string := "ne-trip-cart".
Definition HUB_KEY : string := "ne-trip-hub".

Section Actions.
Variable P : Platform.

(** [localStorage.setItem (k, v)] *)
Definition setItem (k v : string) : Js unit :=
  fun w =>
    if setItem_throws P (localStorage w) k v then (Throw QuotaExceededError, w)
    else (Normal tt,
          {| store := store w; localStorage := <[k := v]> (localStorage w) |}).

(** [localStorage.getItem (k)]: [None] is [null]. *)
Definition getItem (k : string) : Js (option string) :=
  fun w => (Normal (localStorage w !! k), w).

Definition parse (raw : string) : Js (list CartPlace) :=
  match JSON_parse P raw with
  | Some items => ret items
  | None => throw SyntaxError
  end.

Definition saveToStorage (items : list CartPlace) : Js unit :=
  try_catch (setItem STORAGE_KEY (JSON_stringify P items)) (fun _ => ret tt).

Definition saveHubToStorage (hub : string) : Js unit :=
  try_catch (setItem HUB_KEY hub) (fun _ => ret tt).

Definition addToCart (place : CartPlace) : Js unit :=
  s ← get_store;
  let current := cartItems s in
  if List.existsb (fun p => String.eqb (id p) (id place)) current then ret tt
  else
    let next := current ++ [place] in
    set_cartItems next ;;
    saveToStorage next ;;
    s ← get_store;
    (if negb (truthy_string (selectedHub s)) then
       match availableHubs (cartItems s) with
       | hub0 :: _ => set_selectedHub hub0 ;; saveHubToStorage hub0
       | [] => ret tt
       end
     else ret tt) ;;
    set_sidebarOpen true.

Definition removeFromCart (i : string) : Js unit :=
  s ← get_store;
  let next := List.filter (fun p => negb (String.eqb (id p) i)) (cartItems s) in
  set_cartItems next ;;
  saveToStorage next.

Definition clearCart : Js unit :=
  set_cartItems [] ;;
  set_selectedHub EmptyString ;;
  saveToStorage [] ;;
  saveHubToStorage EmptyString.

Definition toggleSidebar : Js unit :=
  s ← get_store;
  set_sidebarOpen (negb (sidebarOpen s)).

Definition selectHub (hub : string) : Js unit :=
  set_selectedHub hub ;;
  saveHubToStorage hub.

Definition loadFromStorage : Js unit :=
  try_catch
    (raw ← getItem STORAGE_KEY;
     match raw with
     | Some r =>
         if truthy_string r then items ← parse r; set_cartItems items
         else ret tt
     | None => ret tt
     end ;;
     hub ← getItem HUB_KEY;
     match hub with
     | Some h => if truthy_string h then set_selectedHub h else ret tt
     | None => ret tt
     end)
    (fun _ => ret tt).

(** The five actions a component can fire. *)
Inductive Action :=
| AddToCart (place : CartPlace)
| RemoveFromCart (i : string)
| ClearCart
| SelectHub (hub : string)
| ToggleSidebar.

Definition perform (a : Action) : Js unit :=
  match a with
  | AddToCart place => addToCart place
  | RemoveFromCart i => removeFromCart i
  | ClearCart => clearCart
  | SelectHub hub => selectHub hub
  | ToggleSidebar => toggleSidebar
  end.
End Actions.

(* ------------------------------------------------------------------ *)
(** ** The map: great-circle distance *)
(* ------------------------------------------------------------------ *)

(** [haversine] over the real numbers: [Math.sin], [Math.cos], [Math.asin],
    [Math.sqrt] and [Math.PI] are the real functions and the real constant. *)
Module Proximity.
Local Open Scope R_scope.

Definition haversine (lat1 lon1 lat2 lon2 : R) : R :=
  let R := 6371 in
  let dLat := ((lat2 - lat1) * PI) / 180 in
  let dLon := ((lon2 - lon1) * PI) / 180 in
  let a :=
    sin (dLat / 2) ^ 2
    + cos ((lat1 * PI) / 180) * cos ((lat2 * PI) / 180) * sin (dLon / 2) ^ 2 in
  R * 2 * asin (sqrt a).
End Proximity.

(* ------------------------------------------------------------------ *)
(** ** Vocabulary of the properties *)
(* ------------------------------------------------------------------ *)

Definition Zsum (l : list Z) : Z := List.fold_right Z.add 0 l.

(** What one entry adds to the total: the drive time of its first logistics
    entry for the hub, nothing when it has none. *)
Definition contribution (hub : string) (p : CartPlace) : Z :=
  match hub_match hub p with
  | Some l => drive_time_mins l
  | None => 0
  end.

(** The hub names of a cart, in the order the two nested loops visit them. *)
Definition hub_refs (items : list CartPlace) : list string :=
  List.flat_map (fun item => List.map hub_name (logistics item)) items.

(** What the loops of [$availableHubs] count for a hub: the logistics
    entries of the cart that name it, an entry of the cart that names the hub
    twice counting twice. *)
Definition row_count (items : list CartPlace) (h : string) : Z :=
  Z.of_nat (List.count_occ string_dec (hub_refs items) h).

(** An entry of the cart references the hub: one of its logistics entries
    names it. *)
Definition references (h : string) (item : CartPlace) : bool :=
  List.existsb (fun l => String.eqb (hub_name l) h) (logistics item).

(** The coverage count of the specification: how many entries of the cart
    reference the hub.  It follows the specification's words and is not what
    the code computes; [row_count] is. *)
Definition coverage (items : list CartPlace) (h : string) : Z :=
  Z.of_nat (length (List.filter (references h) items)).

(** Reading [l] from the left, [a] is met before [b] is, and [b] is met. *)
Fixpoint before (a b : string) (l : list string) : bool :=
  match l with
  | [] => false
  | x :: l' =>
      if String.eqb x a then negb (String.eqb x b) && List.existsb (String.eqb b) l'
      else if String.eqb x b then false
      else before a b l'
  end.

(** [a] ranks above [b] as the code sorts: named by more logistics entries,
    or by as many and encountered first. *)
Definition ranks_above (items : list CartPlace) (a b : string) : Prop :=
  row_count items a > row_count items b
  \/ (row_count items a = row_count items b
      /\ before a b (hub_refs items) = true).


(** No entry of the cart names the same hub in two of its logistics
    entries. *)
Definition hubs_once (items : list CartPlace) : Prop :=
  forall item, In item items -> List.NoDup (List.map hub_name (logistics item)).

(** The body of the inner loop of [$availableHubs], on the hub name alone. *)
Definition count_name (m : JsMap) (n : string) : JsMap :=
  Map_set n (match Map_get m n with Some c => c | None => 0 end + 1) m.

(** [p] goes in front of [q]: a larger count, or the same count and a key
    met earlier in [keys]. *)
Definition above (keys : list string) (p q : string * Z) : Prop :=
  snd p > snd q \/ (snd p = snd q /\ before (fst p) (fst q) keys = true).

(* ------------------------------------------------------------------ *)
(** ** Sample data *)
(* ------------------------------------------------------------------ *)

Definition sample_P1 : CartPlace :=
  {| id := "kaziranga"; name := "Kaziranga National Park";
     category := "Wildlife & Nature"; subCategory := "National Park";
     state := "Assam"; googleRating := Some 5; image := None;
     logistics :=
       [ {| hub_name := "Guwahati Airport"; hub_type := "airport";
            distance_km := 18; drive_time_mins := 30 |} ] |}.

Definition sample_P2 : CartPlace :=
  {| id := "nohkalikai"; name := "Nohkalikai Falls";
     category := "Waterfall"; subCategory := "Plunge";
     state := "Meghalaya"; googleRating := None; image := None;
     logistics := [] |}.

Definition sample_P3 : CartPlace :=
  {| id := "umananda"; name := "Umananda Temple";
     category := "Spiritual"; subCategory := "Temple";
     state := "Assam"; googleRating := Some 4; image := None;
     logistics :=
       [ {| hub_name := "Guwahati Railway Station"; hub_type := "train";
            distance_km := 4; drive_time_mins := 15 |};
         {| hub_name := "Guwahati Airport"; hub_type := "airport";
            distance_km := 24; drive_time_mins := 40 |} ] |}.





(** A platform for examples.  Its storage takes every write.  Its codec
    stands in for JSON on a few carts: a cart is written as the list of the
    ids of its entries, and a text is read back by looking it up among the
    texts of [sample_carts]; any other text is rejected. *)
Definition sample_stringify (items : list CartPlace) : string :=
  "[" +:+ join "," (List.map id items) +:+ "]".

Definition sample_carts : list (list CartPlace) :=
  [ []; [sample_P1]; [sample_P1; sample_P2]; [sample_P1; sample_P3] ].

Definition sample_parse (raw : string) : option (list CartPlace) :=
  List.find (fun cart => String.eqb (sample_stringify cart) raw) sample_carts.

Definition sample_platform : Platform :=
  {| JSON_stringify := sample_stringify;
     JSON_parse := sample_parse;
     setItem_throws := never_refuses;
     JSON_stringify_nil := eq_refl;
     JSON_parse_nil := eq_refl |}.

(** The same platform with a storage that refuses every write. *)
Definition full_storage_platform : Platform :=
  with_refusals sample_platform (fun _ _ _ => true).

Definition empty_world : World :=
  {| store := initial_store; localStorage := ∅ |}.

(** The session after a first [addToCart]: one entry, its hub selected, the
    sidebar open, and both keys stored. *)
Definition busy_world : World :=
  snd (perform sample_platform (AddToCart sample_P1) empty_world).

(** The world a page load starts from: fresh atoms over the given storage. *)
Definition fresh_world (sto : gmap string string) : World :=
  {| store := initial_store; localStorage := sto |}.

(* ------------------------------------------------------------------ *)
(** ** hub-utils: slugs *)
(* ------------------------------------------------------------------ *)

(** In this part a string is read as its sequence of bytes (UTF-8); case
    conversion and the character classes of the regular expressions act on
    the ASCII range, the other bytes being neither letters nor digits. *)
Definition in_range (lo hi : N) (c : ascii) : bool :=
  ((lo <=? N_of_ascii c) && (N_of_ascii c <=? hi))%N.

Definition is_digit (c : ascii) : bool := in_range 48 57 c.
Definition is_lower (c : ascii) : bool := in_range 97 122 c.
Definition is_upper (c : ascii) : bool := in_range 65 90 c.

(** The class [[a-z0-9]]. *)
Definition is_slug_char (c : ascii) : bool := is_lower c || is_digit c.

Definition to_lower (c : ascii) : ascii :=
  if is_upper c then ascii_of_N (N_of_ascii c + 32) else c.

Definition to_upper (c : ascii) : ascii :=
  if is_lower c then ascii_of_N (N_of_ascii c - 32) else c.

Definition dash : ascii := "-"%char.
Definition space : ascii := " "%char.

(** [String.prototype.toLowerCase] on ASCII text: the letters [A-Z] are
    lowered, every other byte is kept. *)
Fixpoint toLowerCase (s : string) : string :=
  match s with
  | EmptyString => EmptyString
  | String c r => String (to_lower c) (toLowerCase r)
  end.

(** [.replace (/[^a-z0-9]+/g, "-")]: every maximal run of characters outside
    the class becomes one dash; [in_run] tells that the run has begun. *)
Fixpoint replace_runs (in_run : bool) (s : string) : string :=
  match s with
  | EmptyString => EmptyString
  | String c r =>
      if is_slug_char c then String c (replace_runs false r)
      else if in_run then replace_runs true r
      else String dash (replace_runs true r)
  end.

(** [.replace (/-$/, empty)] *)
Fixpoint drop_last_dash (s : string) : string :=
  match s with
  | EmptyString => EmptyString
  | String c EmptyString => if Ascii.eqb c dash then EmptyString else s
  | String c r => String c (drop_last_dash r)
  end.

(** [.replace (/(^-|-$)/g, empty)]: a dash at the start goes, and a dash at the
    end of what follows goes. *)
Definition trim_edge_dashes (s : string) : string :=
  match s with
  | String c r => if Ascii.eqb c dash then drop_last_dash r else drop_last_dash s
  | EmptyString => EmptyString
  end.

Definition slugify (str : string) : string :=
  trim_edge_dashes (replace_runs false (toLowerCase str)).

Fixpoint contains_char (c : ascii) (s : string) : bool :=
  match s with
  | EmptyString => false
  | String x r => Ascii.eqb x c || contains_char c r
  end.

(** [.replace (/\([^)]*\)/g, empty)]: an opening parenthesis that is followed
    somewhere by a closing one goes with everything up to the first closing
    one; [skipping] tells that such a group is being dropped. *)
Fixpoint remove_groups (skipping : bool) (s : string) : string :=
  match s with
  | EmptyString => EmptyString
  | String c r =>
      if skipping then
        remove_groups (negb (Ascii.eqb c ")")) r
      else if Ascii.eqb c "(" && contains_char ")" r then remove_groups true r
      else String c (remove_groups false r)
  end.

(** The white space of the ASCII range. *)
Definition is_space (c : ascii) : bool :=
  in_range 9 13 c || Ascii.eqb c space.

Fixpoint trim_start (s : string) : string :=
  match s with
  | String c r => if is_space c then trim_start r else s
  | EmptyString => EmptyString
  end.

Fixpoint all_space (s : string) : bool :=
  match s with
  | EmptyString => true
  | String c r => is_space c && all_space r
  end.

Fixpoint trim_end (s : string) : string :=
  match s with
  | EmptyString => EmptyString
  | String c r => if all_space s then EmptyString else String c (trim_end r)
  end.

Definition trim (s : string) : string := trim_end (trim_start s).

(** [/airport/i.test (s)] *)
Fixpoint starts_with_ci (pat s : string) : bool :=
  match pat, s with
  | EmptyString, _ => true
  | String p pat', String c r =>
      Ascii.eqb (to_lower c) p && starts_with_ci pat' r
  | String _ _, EmptyString => false
  end.

Fixpoint test_ci (pat s : string) : bool :=
  starts_with_ci pat s
  || match s with
     | EmptyString => false
     | String _ r => test_ci pat r
     end.

(** [s.split (sep)] for a separator of one character. *)
Fixpoint split (sep : ascii) (s : string) : list string :=
  match s with
  | EmptyString => [EmptyString]
  | String c r =>
      if Ascii.eqb c sep then EmptyString :: split sep r
      else
        match split sep r with
        | w :: ws => String c w :: ws
        | [] => [String c EmptyString]
        end
  end.

(** [.pop ()] of a list that [split] returned. *)
Definition pop (l : list string) : string := List.last l EmptyString.

Definition hubToSlug (hubName : string) : string :=
  let cleaned := trim (remove_groups false hubName) in
  if test_ci "airport" hubName && contains_char "," cleaned then
    let city := trim (pop (split "," cleaned)) in
    slugify (city +:+ " airport")
  else slugify cleaned.

(** One word of a label: [w[0].toUpperCase () + w.slice (1)]; [w[0]] is
    [undefined] for the empty word, and the call on it throws. *)
Definition capitalize (w : string) : option string :=
  match w with
  | EmptyString => None
  | String c r => Some (String (to_upper c) r)
  end.

Fixpoint map_words (ws : list string) : option (list string) :=
  match ws with
  | [] => Some []
  | w :: ws' =>
      match capitalize w, map_words ws' with
      | Some w', Some ws'' => Some (w' :: ws'')
      | _, _ => None
      end
  end.

(** ["guwahati-airport" -> "Guwahati Airport"]; [None] when it throws. *)
Definition slugToLabel (slug : string) : option string :=
  option_map (join " ") (map_words (split dash slug)).

(* ------------------------------------------------------------------ *)
(** ** The share link *)
(* ------------------------------------------------------------------ *)

(** The characters that [encodeURIComponent] leaves as they are: letters,
    digits and [- _ . ! ~ * ' ( )]. *)
Definition unreserved (c : ascii) : bool :=
  is_lower c || is_upper c || is_digit c
  || List.existsb (Ascii.eqb c)
       [ "-"; "_"; "."; "!"; "~"; "*"; "'"; "("; ")" ]%char.

Definition hex_digit (n : N) : ascii :=
  if (n <? 10)%N then ascii_of_N (48 + n) else ascii_of_N (55 + n).

Definition percent : ascii := "%"%char.

(** One byte of the UTF-8 form of the text. *)
Definition encode_byte (c : ascii) : string :=
  if unreserved c then String c EmptyString
  else
    String percent
      (String (hex_digit (N_of_ascii c / 16))
         (String (hex_digit (N_of_ascii c mod 16)) EmptyString)).

Fixpoint encodeURIComponent (s : string) : string :=
  match s with
  | EmptyString => EmptyString
  | String c r => encode_byte c +:+ encodeURIComponent r
  end.

Definition getWhatsAppShareUrl (text : string) : string :=
  "https://wa.me/?text=" +:+ encodeURIComponent text.

(* ------------------------------------------------------------------ *)
(** ** The components that call the store *)
(* ------------------------------------------------------------------ *)

(** [AddToTripButton]: the click handler of the button of a place card; the
    [inCart] it tests is the membership of the place in the current cart. *)
Definition handleClick (P : Platform) (place : CartPlace) : Js unit :=
  s ← get_store;
  if List.existsb (fun p => String.eqb (id p) (id place)) (cartItems s)
  then removeFromCart P (id place)
  else addToCart P place.

(** [TripSidebar]: the link that the share button opens ([None] when the
    grouped view cannot be computed). *)
Definition handleShare (s : Store) : option string :=
  match groupedByState (cartItems s) with
  | Some groups =>
      Some (getWhatsAppShareUrl
              (formatItineraryForWhatsApp groups (selectedHub s)
                 (totalDriveMins (cartItems s) (selectedHub s))))
  | None => None
  end.

(** Three entries whose states are "Assam", "10" and "2": the last two are
    written like array indices. *)
Definition place_in_state (i st : string) : CartPlace :=
  {| id := i; name := i; category := "Heritage"; subCategory := "Fort";
     state := st; googleRating := None; image := None; logistics := [] |}.

Definition numbered_states_cart : list CartPlace :=
  [ place_in_state "a" "Assam"; place_in_state "b" "10";
    place_in_state "c" "2" ].

(* ------------------------------------------------------------------ *)
(** ** Vocabulary of the further properties *)
(* ------------------------------------------------------------------ *)

(** The distinct elements of a list, each at its first occurrence. *)
Fixpoint firsts (l : list string) : list string :=
  match l with
  | [] => []
  | x :: l' => x :: List.filter (fun y => negb (String.eqb y x)) (firsts l')
  end.

(** The entries of the cart whose state is [k], in cart order. *)
Definition of_state (k : string) (items : list CartPlace) : list CartPlace :=
  List.filter (fun p => String.eqb (state p) k) items.

(** Grouping by state, said directly: one group per state, in the order the
    states are first met, each holding its entries in cart order. *)
Definition grouping (items : list CartPlace) : list (string * list CartPlace) :=
  List.map (fun k => (k, of_state k items)) (firsts (List.map state items)).

(** The state of an entry is a name that every object inherits. *)
Definition inherited_state (p : CartPlace) : bool :=
  List.existsb (String.eqb (state p)) Object_prototype_keys.

(** The storage holds what the atoms hold: the cart under its key (or no
    cart key and no entry), the hub under its key (or no hub key and no
    hub). *)
Definition in_sync (P : Platform) (w : World) : Prop :=
  (localStorage w !! STORAGE_KEY
     = Some (JSON_stringify P (cartItems (store w)))
   \/ (localStorage w !! STORAGE_KEY = None /\ cartItems (store w) = []))
  /\ (localStorage w !! HUB_KEY = Some (selectedHub (store w))
      \/ (localStorage w !! HUB_KEY = None
          /\ selectedHub (store w) = EmptyString)).

(** [sparse after_dash s]: [s] is made of characters of [[a-z0-9]] and of
    dashes, no dash follows a dash, and [s] does not begin with a dash when
    [after_dash] is set. *)
Fixpoint sparse (after_dash : bool) (s : string) : bool :=
  match s with
  | EmptyString => true
  | String c r =>
      if is_slug_char c then sparse false r
      else Ascii.eqb c dash && negb after_dash && sparse true r
  end.

Fixpoint ends_with_dash (s : string) : bool :=
  match s with
  | EmptyString => false
  | String c EmptyString => Ascii.eqb c dash
  | String _ r => ends_with_dash r
  end.

(** A slug: words of [[a-z0-9]] joined by single dashes (the empty string
    included). *)
Definition is_slug (s : string) : bool :=
  sparse true s && negb (ends_with_dash s).

(** The label of a slug, said directly: every dash becomes a space and the
    first letter of every word becomes a capital; [start] tells that a word
    begins. *)
Fixpoint cap (start : bool) (s : string) : string :=
  match s with
  | EmptyString => EmptyString
  | String c r =>
      if Ascii.eqb c dash then String space (cap true r)
      else String (if start then to_upper c else c) (cap false r)
  end.

Definition hex_value (c : ascii) : N :=
  if is_digit c then N_of_ascii c - 48 else N_of_ascii c - 55.

(** Reading a percent-encoded text back. *)
Fixpoint percent_decode (s : string) : string :=
  match s with
  | EmptyString => EmptyString
  | String c r =>
      if Ascii.eqb c percent then
        match r with
        | String h1 (String h2 r') =>
            String (ascii_of_N (16 * hex_value h1 + hex_value h2))
                   (percent_decode r')
        | _ => s
        end
      else String c (percent_decode r)
  end.

(** The quantity [a] of [haversine], whose square root goes to [Math.asin]. *)
Definition haversine_a (lat1 lon1 lat2 lon2 : R) : R :=
  (sin ((((lat2 - lat1) * PI) / 180) / 2) ^ 2
   + cos ((lat1 * PI) / 180) * cos ((lat2 * PI) / 180)
     * sin ((((lon2 - lon1) * PI) / 180) / 2) ^ 2)%R.

(** The largest size below which every integer is a number of the language:
    [Number.MAX_SAFE_INTEGER + 1]. *)
Definition MAX_SAFE : Z := 2 ^ 53.

(** The sizes of what the entries of the cart add to the total for [hub] are
    at most [MAX_SAFE] together.  Numbers are doubles; drive times being
    integers, under this bound each addition of the loop of
    [$totalDriveMins] is exact, in whatever order the entries come. *)
Definition within_safe_integers (items : list CartPlace) (hub : string) : Prop :=
  Zsum (List.map (fun p => Z.abs (contribution hub p)) items) <= MAX_SAFE.

(* ================================================================== *)
(** * Properties *)
(* ================================================================== *)

Example fmtDrive_45 : fmtDrive 45 = "45 min".
Proof. reflexivity. Qed.

Example fmtDrive_135 : fmtDrive 135 = "2h 15m".
Proof. reflexivity. Qed.

Example fmtDrive_120 : fmtDrive 120 = "2h".
Proof. reflexivity. Qed.

(* ------------------------------------------------------------------ *)
(** ** The itinerary of an empty cart *)
(* ------------------------------------------------------------------ *)

Lemma Object_entries_nil {V : Type} : Object_entries (@nil (string * V)) = [].
Proof. reflexivity. Qed.

(** C1, as stated, fails: the grouped view of the empty cart is empty, yet
    the itinerary of the empty cart with no hub is not the title line alone;
    the closing line [footer_line] is always appended. *)
Lemma empty_cart_itinerary_not_title_only :
  groupedByState [] = Some []
  /\ formatItineraryForWhatsApp [] EmptyString (totalDriveMins [] EmptyString)
     <> title_line.
Proof. split; [reflexivity | discriminate]. Qed.

(** C1, amended: for the empty cart the itinerary has no group section.  With
    no hub selected it is the title line, an empty line and the closing line;
    with a hub selected the hub line, the total line and an empty line come in
    between, and nothing else.  The formatter is a total function: it returns
    a string on every input. *)
Theorem empty_cart_itinerary (hub : string) (totalMins : Z) :
  groupedByState [] = Some []
  /\ formatItineraryForWhatsApp [] EmptyString totalMins
     = join newline [title_line; EmptyString; footer_line]
  /\ (hub <> EmptyString ->
      formatItineraryForWhatsApp [] hub totalMins
      = join newline
          [ title_line; EmptyString;
            "Starting from: " +:+ hub;
            "Total drive time: " +:+ fmtDrive totalMins +:+ " (approx.)";
            EmptyString; footer_line ]).
Proof.
  split; [reflexivity | split; [reflexivity |]].
  intros Hhub. destruct hub as [| c hub']; [congruence | reflexivity].
Qed.

Lemma empty_cart_itinerary_witness :
  formatItineraryForWhatsApp [] "Guwahati Airport" 0
  = join newline
      [ title_line; EmptyString;
        "Starting from: Guwahati Airport";
        "Total drive time: 0 min (approx.)";
        EmptyString; footer_line ].
Proof.
  apply (proj2 (proj2 (empty_cart_itinerary "Guwahati Airport" 0))).
  discriminate.
Defined.

(* ------------------------------------------------------------------ *)
(** ** Total drive minutes *)
(* ------------------------------------------------------------------ *)

Lemma hub_match_first (h : string) (p : CartPlace) (l : LogisticsEntry)
    (pre post : list LogisticsEntry) :
  logistics p = pre ++ l :: post ->
  hub_name l = h ->
  Forall (fun x => hub_name x <> h) pre ->
  hub_match h p = Some l.
Proof.
  unfold hub_match. intros -> Hl Hpre.
  induction Hpre as [| x pre Hx _ IH]; simpl.
  - apply String.eqb_eq in Hl. now rewrite Hl.
  - apply String.eqb_neq in Hx. now rewrite Hx.
Qed.

Lemma hub_match_none (h : string) (p : CartPlace) :
  (forall l, In l (logistics p) -> hub_name l <> h) ->
  hub_match h p = None.
Proof.
  unfold hub_match. intros Hno.
  destruct (List.find _ (logistics p)) as [l |] eqn:E; [| reflexivity].
  apply List.find_some in E as [Hin Heq].
  apply String.eqb_eq in Heq. now destruct (Hno l Hin).
Qed.

Lemma total_loop (h : string) (items : list CartPlace) (acc : Z) :
  List.fold_left
    (fun total item =>
       match hub_match h item with
       | Some l => total + drive_time_mins l
       | None => total
       end)
    items acc
  = acc + Zsum (List.map (contribution h) items).
Proof.
  revert acc. induction items as [| p items IH]; intros acc; simpl.
  - lia.
  - rewrite IH. unfold contribution. destruct (hub_match h p); lia.
Qed.

(** C6: with hub [h] selected (a non-empty string), [$totalDriveMins] is the
    sum over the entries of their contributions, where an entry contributes
    the drive time of its (first) logistics entry named [h] and zero when it
    has none; a cart of one entry with 40 minutes for [h] and one entry
    without [h] totals 40.  With no hub selected the total is 0. *)
Theorem totalDriveMins_sum (items : list CartPlace) (h : string) :
  totalDriveMins items EmptyString = 0
  /\ (h <> EmptyString ->
      totalDriveMins items h = Zsum (List.map (contribution h) items)
      /\ (forall p l pre post,
            logistics p = pre ++ l :: post ->
            hub_name l = h ->
            Forall (fun x => hub_name x <> h) pre ->
            contribution h p = drive_time_mins l)
      /\ (forall p,
            (forall l, In l (logistics p) -> hub_name l <> h) ->
            contribution h p = 0)
      /\ (forall p1 p2 l pre post,
            logistics p1 = pre ++ l :: post ->
            hub_name l = h ->
            Forall (fun x => hub_name x <> h) pre ->
            drive_time_mins l = 40 ->
            (forall l', In l' (logistics p2) -> hub_name l' <> h) ->
            totalDriveMins [p1; p2] h = 40)).
Proof.
  split; [reflexivity |].
  intros Hh.
  assert (Htotal : forall its, totalDriveMins its h = Zsum (List.map (contribution h) its)).
  { intros its. unfold totalDriveMins.
    destruct h as [| c h']; [congruence |]. simpl negb. cbv iota.
    rewrite total_loop. lia. }
  assert (Hfirst : forall p l pre post,
            logistics p = pre ++ l :: post -> hub_name l = h ->
            Forall (fun x => hub_name x <> h) pre ->
            contribution h p = drive_time_mins l).
  { intros p l pre post Hp Hl Hpre. unfold contribution.
    now rewrite (hub_match_first h p l pre post Hp Hl Hpre). }
  assert (Hnone : forall p,
            (forall l, In l (logistics p) -> hub_name l <> h) ->
            contribution h p = 0).
  { intros p Hp. unfold contribution. now rewrite (hub_match_none h p Hp). }
  split; [apply Htotal | split; [exact Hfirst | split; [exact Hnone |]]].
  intros p1 p2 l pre post Hp1 Hl Hpre H40 Hp2.
  rewrite Htotal. simpl.
  rewrite (Hfirst p1 l pre post Hp1 Hl Hpre), (Hnone p2 Hp2). lia.
Qed.

(* ------------------------------------------------------------------ *)
(** ** The actions of the store *)
(* ------------------------------------------------------------------ *)

(** Unfolds the statements of an action down to the world they produce. *)
Ltac js_unfold :=
  unfold perform, addToCart, removeFromCart, clearCart, selectHub,
    toggleSidebar, loadFromStorage, saveToStorage, saveHubToStorage, parse,
    setItem, getItem, try_catch, get_store, set_cartItems, set_selectedHub,
    set_sidebarOpen, throw, mbind, Js_bind, bind, ret in *.

Ltac js_run :=
  js_unfold; simpl;
  repeat match goal with
         | |- context [setItem_throws ?P ?s ?k ?v] =>
             destruct (setItem_throws P s k v); simpl
         | |- context [match availableHubs ?l with _ => _ end] =>
             destruct (availableHubs l); simpl
         end.

Lemma existsb_id_In (i : string) (items : list CartPlace) :
  List.existsb (fun p => String.eqb (id p) i) items = true
  <-> In i (List.map id items).
Proof.
  rewrite List.existsb_exists, List.in_map_iff. split.
  - intros [p [Hin Heq]]. apply String.eqb_eq in Heq. eauto.
  - intros [p [Heq Hin]]. exists p. split; [assumption |].
    now apply String.eqb_eq.
Qed.

Lemma saveToStorage_store (P : Platform) (items : list CartPlace) (w : World) :
  fst (saveToStorage P items w) = Normal tt
  /\ store (snd (saveToStorage P items w)) = store w.
Proof. js_run; auto. Qed.

Lemma saveHubToStorage_store (P : Platform) (hub : string) (w : World) :
  fst (saveHubToStorage P hub w) = Normal tt
  /\ store (snd (saveHubToStorage P hub w)) = store w.
Proof. js_run; auto. Qed.

(** C3: [addToCart p] always returns normally.  When an entry with the id of
    [p] is in the cart, the whole world (entries, hub, sidebar flag and
    storage) is unchanged.  Otherwise [p] is appended at the end, the sidebar
    flag becomes true, a hub that was selected stays, and with no hub
    selected the hub becomes the first of the available hubs of the new cart
    (it stays empty when the new cart names no hub). *)
Theorem addToCart_spec (P : Platform) (p : CartPlace) (w : World) :
  fst (addToCart P p w) = Normal tt
  /\ (In (id p) (List.map id (cartItems (store w))) ->
      snd (addToCart P p w) = w)
  /\ (~ In (id p) (List.map id (cartItems (store w))) ->
      let s' := store (snd (addToCart P p w)) in
      cartItems s' = cartItems (store w) ++ [p]
      /\ sidebarOpen s' = true
      /\ (selectedHub (store w) <> EmptyString ->
          selectedHub s' = selectedHub (store w))
      /\ (selectedHub (store w) = EmptyString ->
          selectedHub s'
          = List.hd EmptyString (availableHubs (cartItems (store w) ++ [p])))).
Proof.
  destruct w as [[items hub side] sto]. simpl.
  destruct (List.existsb (fun q => String.eqb (id q) (id p)) items) eqn:E.
  - assert (Hin : In (id p) (List.map id items)) by now apply existsb_id_In.
    js_unfold. simpl. rewrite E. simpl.
    split; [reflexivity | split; [reflexivity |]].
    intros Hnot. now destruct Hnot.
  - assert (Hnot : ~ In (id p) (List.map id items)).
    { intros Hin. apply existsb_id_In in Hin. congruence. }
    js_unfold. simpl. rewrite E.
    destruct hub as [| c hub']; js_run;
      (split; [reflexivity |]);
      (split; [intros Hin; now destruct Hnot |]);
      intros _; (split; [reflexivity |]); (split; [reflexivity |]);
      (split; [congruence | intros; reflexivity || discriminate]).
Qed.

Lemma addToCart_spec_witness :
  snd (addToCart sample_platform sample_P1 busy_world) = busy_world
  /\ selectedHub (store (snd (addToCart sample_platform sample_P1 empty_world)))
     = "Guwahati Airport".
Proof.
  split.
  - apply (proj1 (proj2 (addToCart_spec sample_platform sample_P1 busy_world))).
    simpl. now left.
  - destruct (proj2 (proj2 (addToCart_spec sample_platform sample_P1 empty_world)))
      as (_ & _ & _ & Hhub).
    + simpl. tauto.
    + now rewrite Hhub.
Defined.

Lemma filter_other_ids (i : string) (items : list CartPlace) :
  ~ In i (List.map id items) ->
  List.filter (fun p => negb (String.eqb (id p) i)) items = items.
Proof.
  induction items as [| p items IH]; simpl; intros Hnot; [reflexivity |].
  destruct (String.eqb_spec (id p) i) as [Heq | Hne]; simpl.
  - exfalso. apply Hnot. now left.
  - f_equal. apply IH. intros Hin. apply Hnot. now right.
Qed.

Lemma filter_bool_sublist {A : Type} (f : A -> bool) (l : list A) :
  sublist (List.filter f l) l.
Proof.
  induction l as [| x l IH]; simpl.
  - constructor.
  - destruct (f x); now constructor.
Qed.

(** C5: [removeFromCart i] returns normally and deletes exactly the entries
    whose id is [i]: an entry is in the new cart iff it was in the cart with
    another id, the new cart is a sublist of the old one (the relative order
    is kept), the selected hub, the sidebar flag and the stored hub are
    untouched, and with no entry of id [i] the entries are unchanged. *)
Theorem removeFromCart_frame (P : Platform) (i : string) (w : World) :
  let w' := snd (removeFromCart P i w) in
  fst (removeFromCart P i w) = Normal tt
  /\ cartItems (store w')
     = List.filter (fun p => negb (String.eqb (id p) i)) (cartItems (store w))
  /\ (forall p, In p (cartItems (store w'))
                <-> In p (cartItems (store w)) /\ id p <> i)
  /\ sublist (cartItems (store w')) (cartItems (store w))
  /\ selectedHub (store w') = selectedHub (store w)
  /\ sidebarOpen (store w') = sidebarOpen (store w)
  /\ localStorage w' !! HUB_KEY = localStorage w !! HUB_KEY
  /\ (~ In i (List.map id (cartItems (store w))) ->
      cartItems (store w') = cartItems (store w)).
Proof.
  destruct w as [[items hub side] sto].
  assert (Hitems : cartItems (store (snd (removeFromCart P i (mkWorld (mkStore items hub side) sto))))
                   = List.filter (fun p => negb (String.eqb (id p) i)) items)
    by (js_run; reflexivity).
  cbv zeta. rewrite Hitems.
  split; [js_run; reflexivity |].
  split; [reflexivity |].
  split.
  { intros p. rewrite List.filter_In, negb_true_iff, String.eqb_neq. reflexivity. }
  split; [apply filter_bool_sublist |].
  split; [js_run; reflexivity |].
  split; [js_run; reflexivity |].
  split.
  { js_run; [reflexivity |]. now rewrite lookup_insert_ne. }
  simpl. apply filter_other_ids.
Qed.

Lemma removeFromCart_frame_witness :
  cartItems (store (snd (removeFromCart sample_platform "umananda" busy_world)))
  = cartItems (store busy_world).
Proof.
  apply (removeFromCart_frame sample_platform "umananda" busy_world).
  simpl. intros [H | []]. discriminate H.
Defined.

(* ------------------------------------------------------------------ *)
(** ** Persistence failures *)
(* ------------------------------------------------------------------ *)

(** A refused write is caught inside [saveToStorage]: the statement ends
    normally and the storage keeps what it held. *)
Lemma saveToStorage_refused (P : Platform) (items : list CartPlace) (w : World) :
  setItem_throws P (localStorage w) STORAGE_KEY (JSON_stringify P items) = true ->
  setItem P STORAGE_KEY (JSON_stringify P items) w = (Throw QuotaExceededError, w)
  /\ saveToStorage P items w = (Normal tt, w).
Proof. intros H. js_unfold. rewrite H. split; reflexivity. Qed.

Lemma perform_store (P : Platform) (a : Action) (w : World) :
  fst (perform P a w) = Normal tt
  /\ store (snd (perform P a w))
     = match a with
       | AddToCart place =>
           if List.existsb (fun p => String.eqb (id p) (id place))
                           (cartItems (store w))
           then store w
           else
             let next := cartItems (store w) ++ [place] in
             {| cartItems := next;
                selectedHub :=
                  if truthy_string (selectedHub (store w))
                  then selectedHub (store w)
                  else List.hd (selectedHub (store w)) (availableHubs next);
                sidebarOpen := true |}
       | RemoveFromCart i =>
           {| cartItems :=
                List.filter (fun p => negb (String.eqb (id p) i))
                            (cartItems (store w));
              selectedHub := selectedHub (store w);
              sidebarOpen := sidebarOpen (store w) |}
       | ClearCart =>
           {| cartItems := []; selectedHub := EmptyString;
              sidebarOpen := sidebarOpen (store w) |}
       | SelectHub hub =>
           {| cartItems := cartItems (store w); selectedHub := hub;
              sidebarOpen := sidebarOpen (store w) |}
       | ToggleSidebar =>
           {| cartItems := cartItems (store w);
              selectedHub := selectedHub (store w);
              sidebarOpen := negb (sidebarOpen (store w)) |}
       end.
Proof.
  destruct w as [[items hub side] sto].
  destruct a as [place | i | | h |]; simpl.
  - js_unfold. simpl.
    destruct (List.existsb _ items); [split; reflexivity |].
    destruct hub as [| c hub']; js_run; split; reflexivity.
  - js_run; split; reflexivity.
  - js_run; split; reflexivity.
  - js_run; split; reflexivity.
  - js_run; split; reflexivity.
Qed.

(** C7: whichever writes the storage refuses, every action returns normally
    (the exception of a refused write is caught inside the action) and leaves
    the atoms exactly as it leaves them when every write succeeds. *)
Theorem persistence_failure_ignored
    (P : Platform) (refuses : gmap string string -> string -> string -> bool)
    (a : Action) (w : World) :
  fst (perform (with_refusals P refuses) a w) = Normal tt
  /\ store (snd (perform (with_refusals P refuses) a w))
     = store (snd (perform (with_refusals P never_refuses) a w)).
Proof.
  destruct (perform_store (with_refusals P refuses) a w) as [H1 E1].
  destruct (perform_store (with_refusals P never_refuses) a w) as [_ E2].
  split; [assumption |].
  now rewrite E1, E2.
Qed.

(** On a platform that refuses every write the actions still advance the
    atoms while the storage stays as it was. *)
Lemma refused_writes_leave_storage (P : Platform) (a : Action) (w : World) :
  (forall sto k v, setItem_throws P sto k v = true) ->
  localStorage (snd (perform P a w)) = localStorage w.
Proof.
  intros Hfull. destruct w as [[items hub side] sto].
  destruct a as [place | i | | h |]; simpl.
  - js_unfold. simpl.
    destruct (List.existsb _ items); [reflexivity |].
    rewrite !Hfull. simpl.
    destruct hub as [| c hub']; simpl; [| reflexivity].
    destruct (availableHubs (items ++ [place])); simpl; [reflexivity |].
    rewrite Hfull. reflexivity.
  - js_unfold. simpl. now rewrite Hfull.
  - js_unfold. simpl. now rewrite !Hfull.
  - js_unfold. simpl. now rewrite Hfull.
  - reflexivity.
Qed.

Example add_on_full_storage :
  perform full_storage_platform (AddToCart sample_P1) empty_world
  = (Normal tt,
     {| store := {| cartItems := [sample_P1];
                    selectedHub := "Guwahati Airport";
                    sidebarOpen := true |};
        localStorage := ∅ |}).
Proof. reflexivity. Qed.

(* ------------------------------------------------------------------ *)
(** ** One entry per place id *)
(* ------------------------------------------------------------------ *)

Lemma NoDup_map_filter {A B : Type} (f : A -> B) (g : A -> bool) (l : list A) :
  List.NoDup (List.map f l) -> List.NoDup (List.map f (List.filter g l)).
Proof.
  induction l as [| x l IH]; simpl; intros H; [constructor |].
  apply List.NoDup_cons_iff in H as [Hx Hl].
  destruct (g x); simpl; [| auto].
  constructor; [| auto].
  intros Hin. apply Hx.
  apply List.in_map_iff in Hin as [y [Hy Hin]].
  apply List.filter_In in Hin as [Hin _].
  apply List.in_map_iff. eauto.
Qed.

Lemma NoDup_map_snoc {A B : Type} (f : A -> B) (l : list A) (x : A) :
  List.NoDup (List.map f l) -> ~ In (f x) (List.map f l) ->
  List.NoDup (List.map f (l ++ [x])).
Proof.
  intros Hl Hx. rewrite List.map_app. simpl.
  apply List.NoDup_rev in Hl.
  rewrite <- (List.rev_involutive (List.map f l ++ [f x])).
  apply List.NoDup_rev. rewrite List.rev_app_distr. simpl.
  constructor; [| assumption].
  now rewrite <- List.in_rev.
Qed.

(** C8: each of the five actions keeps the ids of the cart pairwise
    distinct. *)
Theorem unique_ids_preserved (P : Platform) (a : Action) (w : World) :
  List.NoDup (List.map id (cartItems (store w))) ->
  List.NoDup (List.map id (cartItems (store (snd (perform P a w))))).
Proof.
  intros Huniq.
  rewrite (proj2 (perform_store P a w)).
  destruct a as [place | i | | h |]; simpl; try assumption.
  - destruct (List.existsb _ (cartItems (store w))) eqn:E; simpl; [assumption |].
    apply NoDup_map_snoc; [assumption |].
    intros Hin. apply existsb_id_In in Hin. congruence.
  - now apply NoDup_map_filter.
  - constructor.
Qed.

Lemma unique_ids_preserved_witness :
  List.NoDup
    (List.map id
       (cartItems
          (store (snd (perform sample_platform (AddToCart sample_P3) busy_world))))).
Proof.
  apply (unique_ids_preserved sample_platform (AddToCart sample_P3) busy_world).
  simpl. constructor; [intros [] | constructor].
Defined.

(* ------------------------------------------------------------------ *)
(** ** Reloading from storage *)
(* ------------------------------------------------------------------ *)

(** With both writes accepted, [clearCart] leaves the serialised empty cart
    and the empty hub in storage. *)
Lemma clearCart_storage (P : Platform) (w : World) :
  setItem_throws P (localStorage w) STORAGE_KEY "[]" = false ->
  setItem_throws P (<[STORAGE_KEY := "[]"]> (localStorage w))
                 HUB_KEY EmptyString = false ->
  localStorage (snd (clearCart P w))
  = <[HUB_KEY := EmptyString]> (<[STORAGE_KEY := "[]"]> (localStorage w)).
Proof.
  intros Hcart Hhub. destruct w as [s sto]. js_unfold.
  rewrite JSON_stringify_nil.
  cbn [localStorage store] in *. rewrite Hcart.
  cbn [localStorage store]. rewrite Hhub. reflexivity.
Qed.

(** C4, amended: when the storage accepts the two writes of [clearCart] (the
    serialised empty cart, then the empty hub), [clearCart] followed by
    [loadFromStorage] on fresh atoms returns normally with no entry and no
    hub, whatever the atoms and the storage held before. *)
Theorem clearCart_then_reload (P : Platform) (w : World) :
  setItem_throws P (localStorage w) STORAGE_KEY "[]" = false ->
  setItem_throws P (<[STORAGE_KEY := "[]"]> (localStorage w))
                 HUB_KEY EmptyString = false ->
  let reloaded :=
    loadFromStorage P (fresh_world (localStorage (snd (clearCart P w)))) in
  fst reloaded = Normal tt
  /\ cartItems (store (snd reloaded)) = []
  /\ selectedHub (store (snd reloaded)) = EmptyString.
Proof.
  intros Hcart Hhub. cbv zeta.
  rewrite (clearCart_storage P w Hcart Hhub).
  js_unfold. simpl.
  rewrite lookup_insert_ne by discriminate.
  rewrite lookup_insert_eq. simpl.
  rewrite JSON_parse_nil. simpl.
  rewrite lookup_insert_eq. simpl.
  repeat split.
Qed.

Lemma clearCart_then_reload_witness :
  cartItems
    (store (snd (loadFromStorage sample_platform
                   (fresh_world
                      (localStorage (snd (clearCart sample_platform busy_world)))))))
  = [].
Proof.
  apply (clearCart_then_reload sample_platform busy_world);
    reflexivity.
Defined.

(** C4, as stated, fails: when the storage refuses the two writes of
    [clearCart], the refusals are swallowed, the stored cart and hub stay,
    and the next load brings them back. *)
Lemma clearCart_then_reload_stale :
  let reloaded :=
    loadFromStorage full_storage_platform
      (fresh_world (localStorage (snd (clearCart full_storage_platform busy_world)))) in
  ~ (cartItems (store (snd reloaded)) = []
     /\ selectedHub (store (snd reloaded)) = EmptyString).
Proof. cbv zeta. vm_compute. intros [H _]. discriminate H. Qed.

Example clearCart_on_full_storage :
  store (snd (clearCart full_storage_platform busy_world))
  = {| cartItems := []; selectedHub := EmptyString; sidebarOpen := true |}
  /\ store (snd (loadFromStorage full_storage_platform
                   (fresh_world
                      (localStorage (snd (clearCart full_storage_platform busy_world))))))
     = {| cartItems := [sample_P1]; selectedHub := "Guwahati Airport";
          sidebarOpen := false |}.
Proof. split; reflexivity. Qed.

(** C10: when the stored cart is a non-empty string that [JSON.parse]
    rejects, [loadFromStorage] returns normally and leaves the whole world as
    it was: the entries are not set and the stored hub, whatever it is, is
    neither read nor applied. *)
Theorem loadFromStorage_corrupt_cart (P : Platform) (w : World) (raw : string) :
  localStorage w !! STORAGE_KEY = Some raw ->
  raw <> EmptyString ->
  JSON_parse P raw = None ->
  loadFromStorage P w = (Normal tt, w).
Proof.
  intros Hraw Hne Hbad. js_unfold. rewrite Hraw.
  destruct raw as [| c raw']; [congruence |]. simpl.
  now rewrite Hbad.
Qed.

Lemma loadFromStorage_corrupt_cart_witness :
  store (snd (loadFromStorage sample_platform
                (fresh_world
                   (<[HUB_KEY := "Guwahati Airport"]>
                      (<[STORAGE_KEY := "[{oops"]> ∅)))))
  = initial_store.
Proof.
  rewrite (loadFromStorage_corrupt_cart sample_platform _ "[{oops");
    [reflexivity | reflexivity | discriminate | reflexivity].
Defined.

(** With a readable cart the stored hub is applied: the hub is lost in C10
    only because the throw leaves the [try] block before the second read. *)
Example loadFromStorage_good_cart :
  store (snd (loadFromStorage sample_platform
                (fresh_world
                   (<[HUB_KEY := "Guwahati Airport"]>
                      (<[STORAGE_KEY := "[]"]> ∅)))))
  = {| cartItems := []; selectedHub := "Guwahati Airport";
       sidebarOpen := false |}.
Proof. reflexivity. Qed.

(* ------------------------------------------------------------------ *)
(** ** The ranking of the hubs *)
(* ------------------------------------------------------------------ *)

Lemma existsb_eqb_In (k : string) (l : list string) :
  List.existsb (String.eqb k) l = true <-> In k l.
Proof.
  rewrite List.existsb_exists. split.
  - intros [x [Hin Heq]]. apply String.eqb_eq in Heq. now subst.
  - intros Hin. exists k. split; [assumption | apply String.eqb_refl].
Qed.

Lemma existsb_eqb_iff (k : string) (l l' : list string) :
  (In k l <-> In k l') ->
  List.existsb (String.eqb k) l = List.existsb (String.eqb k) l'.
Proof.
  intros Hiff. apply Bool.eq_true_iff_eq. now rewrite !existsb_eqb_In.
Qed.

Lemma Map_get_set (m : JsMap) (k k' : string) (v : Z) :
  Map_get (Map_set k v m) k'
  = if String.eqb k k' then Some v else Map_get m k'.
Proof.
  induction m as [| [k0 v0] m IH]; simpl.
  - destruct (String.eqb_spec k k'); reflexivity.
  - destruct (String.eqb_spec k0 k) as [-> | Hne]; simpl.
    + destruct (String.eqb_spec k k'); reflexivity.
    + rewrite IH. destruct (String.eqb_spec k0 k') as [-> | Hne'].
      * destruct (String.eqb_spec k k'); [congruence | reflexivity].
      * reflexivity.
Qed.

Lemma Map_set_keys (m : JsMap) (k : string) (v : Z) :
  List.map fst (Map_set k v m)
  = if List.existsb (String.eqb k) (List.map fst m) then List.map fst m
    else List.map fst m ++ [k].
Proof.
  induction m as [| [k0 v0] m IH]; simpl; [reflexivity |].
  rewrite (String.eqb_sym k k0).
  destruct (String.eqb_spec k0 k) as [-> | Hne]; simpl; [reflexivity |].
  rewrite IH. now destruct (List.existsb _ (List.map fst m)).
Qed.

Lemma Map_get_In (m : JsMap) (k : string) (c : Z) :
  List.NoDup (List.map fst m) -> In (k, c) m -> Map_get m k = Some c.
Proof.
  induction m as [| [k0 v0] m IH]; simpl; intros Hnd Hin; [contradiction |].
  apply List.NoDup_cons_iff in Hnd as [Hk0 Hnd].
  destruct Hin as [Heq | Hin].
  - inversion Heq; subst. now rewrite String.eqb_refl.
  - destruct (String.eqb_spec k0 k) as [-> | Hne]; [| auto].
    exfalso. apply Hk0. apply List.in_map_iff. now exists (k, c).
Qed.

Lemma before_snoc (a b x : string) (l : list string) :
  before a b (l ++ [x])
  = before a b l
    || (List.existsb (String.eqb a) l
        && negb (List.existsb (String.eqb b) l)
        && String.eqb x b).
Proof.
  induction l as [| y l IH]; simpl.
  - destruct (String.eqb x a), (String.eqb x b); reflexivity.
  - rewrite (String.eqb_sym a y), (String.eqb_sym b y).
    destruct (String.eqb_spec y a) as [-> | Hya]; simpl.
    + destruct (String.eqb_spec a b) as [-> | Hab]; simpl; [reflexivity |].
      rewrite List.existsb_app. simpl.
      rewrite (String.eqb_sym b x), Bool.orb_false_r.
      destruct (List.existsb (String.eqb b) l), (String.eqb x b); reflexivity.
    + destruct (String.eqb_spec y b) as [-> | Hyb]; simpl.
      * now rewrite Bool.andb_false_r.
      * exact IH.
Qed.

Lemma before_cons_other (a b x : string) (l : list string) :
  x <> a -> x <> b -> before a b (x :: l) = before a b l.
Proof.
  intros Ha Hb. simpl.
  apply String.eqb_neq in Ha, Hb. now rewrite Ha, Hb.
Qed.

Lemma before_head (a b : string) (l : list string) :
  a <> b -> In b l -> before a b (a :: l) = true.
Proof.
  intros Hab Hin. simpl. rewrite String.eqb_refl.
  apply String.eqb_neq in Hab. rewrite Hab. simpl.
  now apply existsb_eqb_In.
Qed.

Lemma before_irrefl (a : string) (l : list string) : before a a l = false.
Proof.
  induction l as [| x l IH]; simpl; [reflexivity |].
  destruct (String.eqb x a); [reflexivity | assumption].
Qed.

(** The two nested loops visit the hub names in the order of [hub_refs]. *)
Lemma hubCount_refs (items : list CartPlace) :
  hubCount items = List.fold_left count_name (hub_refs items) [].
Proof.
  unfold hubCount, hub_refs. generalize (@nil (string * Z)).
  induction items as [| item items IH]; intros m; simpl; [reflexivity |].
  rewrite List.fold_left_app, IH. f_equal.
  clear IH. revert m.
  induction (logistics item) as [| l ls IHl]; intros m; simpl; [reflexivity |].
  now rewrite IHl.
Qed.

(** What the counting loop leaves in the map after the names [names]: the
    keys are the names met, without repetition and in first-met order, and
    each key carries the number of times it was met. *)
Lemma count_names_spec (names : list string) :
  let m := List.fold_left count_name names [] in
  List.NoDup (List.map fst m)
  /\ (forall k, In k (List.map fst m) <-> In k names)
  /\ (forall a b, before a b (List.map fst m) = before a b names)
  /\ (forall k,
        match Map_get m k with Some c => c | None => 0 end
        = Z.of_nat (List.count_occ string_dec names k)).
Proof.
  induction names as [| x names IH] using List.rev_ind; cbv zeta.
  - simpl. repeat split; try constructor; try contradiction; tauto.
  - rewrite List.fold_left_app. simpl.
    set (m := List.fold_left count_name names []) in *.
    destruct IH as (Hnd & Hin & Hbef & Hcnt). unfold count_name.
    rewrite Map_set_keys.
    destruct (List.existsb (String.eqb x) (List.map fst m)) eqn:Ex.
    + assert (Hx : In x names) by now apply Hin, existsb_eqb_In.
      split; [assumption |]. split; [| split].
      * intros k. rewrite Hin, List.in_app_iff. simpl.
        intuition (subst; auto).
      * intros a b. rewrite Hbef, before_snoc.
        destruct (String.eqb_spec x b) as [-> | Hxb].
        -- apply existsb_eqb_In in Hx. rewrite Hx. simpl.
           now rewrite Bool.andb_false_r, Bool.orb_false_r.
        -- now rewrite Bool.andb_false_r, Bool.orb_false_r.
      * intros k. rewrite Map_get_set, List.count_occ_app. simpl.
        destruct (String.eqb_spec x k) as [-> | Hxk].
        -- destruct (string_dec k k); [| congruence]. rewrite Hcnt. lia.
        -- destruct (string_dec x k); [congruence |]. rewrite Hcnt. lia.
    + assert (Hx : ~ In x names).
      { intros Hx. apply Hin, existsb_eqb_In in Hx. congruence. }
      split; [| split; [| split]].
      * rewrite <- (List.rev_involutive (List.map fst m ++ [x])).
        apply List.NoDup_rev. rewrite List.rev_app_distr. simpl.
        constructor; [| now apply List.NoDup_rev].
        rewrite <- List.in_rev. now rewrite Hin.
      * intros k. rewrite !List.in_app_iff, Hin. reflexivity.
      * intros a b. rewrite !before_snoc, Hbef.
        rewrite (existsb_eqb_iff a _ _ (Hin a)).
        now rewrite (existsb_eqb_iff b _ _ (Hin b)).
      * intros k. rewrite Map_get_set, List.count_occ_app. simpl.
        destruct (String.eqb_spec x k) as [-> | Hxk].
        -- destruct (string_dec k k); [| congruence]. rewrite Hcnt. lia.
        -- destruct (string_dec x k); [congruence |]. rewrite Hcnt. lia.
Qed.

Section SortFacts.
Context {A : Type} (cmp : A -> A -> Z).

Lemma sort_insert_perm (x : A) (l : list A) :
  Permutation (sort_insert cmp x l) (x :: l).
Proof.
  induction l as [| y l IH]; simpl; [reflexivity |].
  destruct (cmp x y <=? 0); [reflexivity |].
  rewrite IH. apply perm_swap.
Qed.

Lemma Array_sort_perm (l : list A) : Permutation (Array_sort cmp l) l.
Proof.
  induction l as [| x l IH]; simpl; [reflexivity |].
  rewrite sort_insert_perm. now apply perm_skip.
Qed.

Lemma StronglySorted_weaken (R R' : A -> A -> Prop) (l : list A) :
  (forall a b, In a l -> In b l -> R a b -> R' a b) ->
  StronglySorted R l -> StronglySorted R' l.
Proof.
  intros Himp Hs. induction Hs as [| a l Hs IH Hall]; constructor.
  - apply IH. intros x y Hx Hy. apply Himp; now right.
  - rewrite List.Forall_forall in *. intros b Hb.
    apply Himp; [now left | now right | now apply Hall].
Qed.
End SortFacts.

Lemma StronglySorted_map {A B : Type} (f : A -> B) (R : B -> B -> Prop)
    (l : list A) :
  StronglySorted (fun a b => R (f a) (f b)) l -> StronglySorted R (List.map f l).
Proof.
  induction 1 as [| a l Hs IH Hall]; simpl; constructor; [assumption |].
  rewrite List.Forall_forall in *. intros b Hb.
  apply List.in_map_iff in Hb as [b' [<- Hb']]. now apply Hall.
Qed.

(** Inserting an entry that, by position, precedes every entry of a ranked
    list keeps the list ranked. *)
Lemma sort_insert_above (keys : list string) (x : string * Z)
    (s : list (string * Z)) :
  (forall q, In q s -> before (fst x) (fst q) keys = true) ->
  StronglySorted (above keys) s ->
  StronglySorted (above keys) (sort_insert (fun a b => snd b - snd a) x s).
Proof.
  intros Hfirst Hs. induction Hs as [| y s Hs IH Hall]; simpl.
  - repeat constructor.
  - rewrite List.Forall_forall in Hall.
    destruct (Z.leb_spec (snd y - snd x) 0) as [Hle | Hgt].
    + constructor; [now constructor; [| apply List.Forall_forall] |].
      apply List.Forall_forall. intros z Hz.
      assert (Hzy : snd z <= snd y).
      { destruct Hz as [<- | Hz]; [lia |].
        destruct (Hall z Hz) as [H | [H _]]; lia. }
      destruct (Z.eq_dec (snd x) (snd z)) as [Heq | Hne].
      * right. split; [assumption | now apply Hfirst].
      * left. lia.
    + constructor.
      * apply IH. intros q Hq. apply Hfirst. now right.
      * apply List.Forall_forall. intros z Hz.
        apply (Permutation_in _ (sort_insert_perm _ x s)) in Hz.
        destruct Hz as [<- | Hz]; [left; lia | now apply Hall].
Qed.

(** The sort of [$availableHubs] ranks a map with distinct keys by [above]. *)
Lemma Array_sort_above (m : list (string * Z)) :
  List.NoDup (List.map fst m) ->
  StronglySorted (above (List.map fst m))
                 (Array_sort (fun a b => snd b - snd a) m).
Proof.
  induction m as [| x m IH]; simpl; intros Hnd; [constructor |].
  apply List.NoDup_cons_iff in Hnd as [Hx Hnd].
  assert (Hin : forall q, In q (Array_sort (fun a b => snd b - snd a) m) ->
                          In (fst q) (List.map fst m)).
  { intros q Hq. apply (Permutation_in _ (Array_sort_perm _ m)) in Hq.
    now apply List.in_map. }
  apply sort_insert_above.
  - intros q Hq. apply before_head; [| now apply Hin].
    intros Heq. apply Hx. rewrite Heq. now apply Hin.
  - apply (StronglySorted_weaken (above (List.map fst m))); [| now apply IH].
    intros a b Ha Hb [Hgt | [Heq Hbef]]; [now left | right].
    split; [assumption |].
    rewrite before_cons_other; [assumption | |];
      intros Heq'; apply Hx; rewrite Heq'; now apply Hin.
Qed.


Lemma availableHubs_perm (items : list CartPlace) :
  Permutation (availableHubs items) (List.map fst (hubCount items)).
Proof. unfold availableHubs. apply Permutation_map, Array_sort_perm. Qed.

Lemma availableHubs_sorted (items : list CartPlace) :
  StronglySorted (ranks_above items) (availableHubs items).
Proof.
  unfold availableHubs. apply StronglySorted_map.
  destruct (count_names_spec (hub_refs items)) as (Hnd & Hin & Hbef & Hcnt).
  rewrite <- hubCount_refs in *.
  apply (StronglySorted_weaken (above (List.map fst (hubCount items))));
    [| now apply Array_sort_above].
  assert (Hcov : forall q,
             In q (Array_sort (fun a b => snd b - snd a) (hubCount items)) ->
             snd q = row_count items (fst q)).
  { intros [k c] Hq. apply (Permutation_in _ (Array_sort_perm _ _)) in Hq.
    unfold row_count. simpl. rewrite <- Hcnt.
    now rewrite (Map_get_In _ _ _ Hnd Hq). }
  intros a b Ha Hb. unfold above, ranks_above.
  rewrite (Hcov a Ha), (Hcov b Hb), Hbef. tauto.
Qed.



(** When no entry names a hub twice, the logistics entries that name a hub
    are as many as the entries of the cart that reference it. *)
Lemma row_count_coverage (items : list CartPlace) (h : string) :
  hubs_once items ->
  row_count items h = coverage items h.
Proof.
  unfold hubs_once, row_count, coverage, hub_refs. intros Hnd. f_equal.
  induction items as [| item items IH]; simpl; [reflexivity |].
  rewrite List.count_occ_app, IH by (intros i Hi; apply Hnd; now right).
  assert (Hitem : List.NoDup (List.map hub_name (logistics item)))
    by (apply Hnd; now left).
  clear IH Hnd. unfold references at 2.
  destruct (List.existsb _ (logistics item)) eqn:E; simpl.
  - apply List.existsb_exists in E as [l [Hl Heq]].
    apply String.eqb_eq in Heq.
    assert (Hin : In h (List.map hub_name (logistics item)))
      by (apply List.in_map_iff; eauto).
    apply (List.count_occ_In string_dec) in Hin.
    pose proof (proj1 (List.NoDup_count_occ string_dec _) Hitem h). lia.
  - rewrite (proj1 (List.count_occ_not_In string_dec _ h)); [reflexivity |].
    intros Hin. apply List.in_map_iff in Hin as [l [Heq Hl]].
    assert (List.existsb (fun l => String.eqb (hub_name l) h) (logistics item) = true).
    { apply List.existsb_exists. exists l. split; [assumption |].
      now apply String.eqb_eq. }
    congruence.
Qed.





(** The ranking leaves no choice: two lists with the members of
    [$availableHubs], each ranked by [ranks_above], are equal. *)
Lemma ranking_unique (items : list CartPlace) (l l' : list string) :
  StronglySorted (ranks_above items) l ->
  StronglySorted (ranks_above items) l' ->
  (forall h, In h l <-> In h l') ->
  l = l'.
Proof.
  assert (Hirr : forall a, ~ ranks_above items a a).
  { intros a [H | [_ H]]; [lia | now rewrite before_irrefl in H]. }
  assert (Hasym : forall a b, ranks_above items a b -> ~ ranks_above items b a).
  { intros a b [H | [He H]] [H' | [He' H']]; try lia.
    revert H H'. generalize (hub_refs items) as refs.
    induction refs as [| x refs IH]; simpl; [discriminate |].
    destruct (String.eqb_spec x a) as [-> | Hxa].
    - destruct (String.eqb_spec a b) as [-> | Hab]; [discriminate |].
      intros _. discriminate.
    - destruct (String.eqb_spec x b) as [-> | Hxb]; [discriminate | exact IH]. }
  intros Hs. revert l'.
  induction Hs as [| a l Hs IH Hall]; intros l' Hs' Hmem.
  - destruct l' as [| b l']; [reflexivity |].
    exfalso. apply (Hmem b). now left.
  - destruct Hs' as [| b l' Hs' Hall']; [exfalso; apply (Hmem a); now left |].
    rewrite List.Forall_forall in Hall, Hall'.
    assert (Hab : a = b).
    { destruct (proj1 (Hmem a) (or_introl eq_refl)) as [Heq | Ha]; [now subst |].
      destruct (proj2 (Hmem b) (or_introl eq_refl)) as [Heq | Hb]; [now subst |].
      exfalso. apply (Hasym a b); [now apply Hall | now apply Hall']. }
    subst b. f_equal. apply IH; [assumption |].
    intros h. split; intros Hh.
    + destruct (proj1 (Hmem h) (or_intror Hh)) as [<- | Hh']; [| assumption].
      exfalso. apply (Hirr a). now apply Hall.
    + destruct (proj2 (Hmem h) (or_intror Hh)) as [<- | Hh']; [| assumption].
      exfalso. apply (Hirr a). now apply Hall'.
Qed.

(* ------------------------------------------------------------------ *)
(** ** Great-circle distance *)
(* ------------------------------------------------------------------ *)

Lemma sin_half_sq_neg (x y : R) :
  (sin (((x - y) * PI) / 180 / 2) ^ 2 = sin (((y - x) * PI) / 180 / 2) ^ 2)%R.
Proof.
  replace (((x - y) * PI) / 180 / 2)%R with (- (((y - x) * PI) / 180 / 2))%R
    by (unfold Rdiv; ring).
  rewrite sin_neg. ring.
Qed.

(** C9: over the real numbers the distance is symmetric in its two points
    and is zero from a point to itself. *)
Theorem haversine_symmetric_zero (latA lonA latB lonB : R) :
  Proximity.haversine latA lonA latB lonB = Proximity.haversine latB lonB latA lonA
  /\ Proximity.haversine latA lonA latA lonA = 0%R.
Proof.
  unfold Proximity.haversine. cbv zeta. split.
  - rewrite (sin_half_sq_neg latB latA), (sin_half_sq_neg lonB lonA).
    rewrite (Rmult_comm (cos ((latA * PI) / 180)) (cos ((latB * PI) / 180))).
    reflexivity.
  - replace (((latA - latA) * PI) / 180 / 2)%R with 0%R by (unfold Rdiv; ring).
    replace (((lonA - lonA) * PI) / 180 / 2)%R with 0%R by (unfold Rdiv; ring).
    rewrite sin_0.
    replace (0 ^ 2 + cos ((latA * PI) / 180) * cos ((latA * PI) / 180) * 0 ^ 2)%R
      with 0%R by ring.
    rewrite sqrt_0, asin_0. ring.
Qed.

Lemma totalDriveMins_sum_witness :
  totalDriveMins [sample_P3; sample_P2] "Guwahati Airport" = 40.
Proof.
  destruct (proj2 (totalDriveMins_sum [sample_P3; sample_P2] "Guwahati Airport"))
    as (_ & _ & _ & H40); [discriminate |].
  apply (H40 sample_P3 sample_P2
             {| hub_name := "Guwahati Airport"; hub_type := "airport";
                distance_km := 24; drive_time_mins := 40 |}
             [ {| hub_name := "Guwahati Railway Station"; hub_type := "train";
                  distance_km := 4; drive_time_mins := 15 |} ]
             []);
    try reflexivity.
  - constructor; [discriminate | constructor].
  - intros l' [].
Defined.

(** The scenario of the specification: from the empty session, adding an
    Assam place reachable in 30 minutes from "Guwahati Airport" and then a
    Meghalaya place without logistics selects that hub, opens the sidebar,
    makes two groups of one entry and totals 30 minutes. *)
Example end_to_end_scenario :
  let w1 := snd (perform sample_platform (AddToCart sample_P1) empty_world) in
  let w2 := snd (perform sample_platform (AddToCart sample_P2) w1) in
  store w2
  = {| cartItems := [sample_P1; sample_P2];
       selectedHub := "Guwahati Airport"; sidebarOpen := true |}
  /\ groupedByState (cartItems (store w2))
     = Some [("Assam", [sample_P1]); ("Meghalaya", [sample_P2])]
  /\ totalDriveMins (cartItems (store w2)) (selectedHub (store w2)) = 30.
Proof. repeat split. Qed.

(* ================================================================== *)
(** * Further properties *)
(* ================================================================== *)

(* ------------------------------------------------------------------ *)
(** ** Grouping by state *)
(* ------------------------------------------------------------------ *)

Lemma firsts_In (x : string) (l : list string) : In x (firsts l) <-> In x l.
Proof.
  induction l as [| y l IH]; simpl; [tauto |].
  rewrite List.filter_In, IH, negb_true_iff, String.eqb_neq.
  destruct (string_dec y x) as [-> | Hne]; [tauto |].
  split; [tauto |]. intros [H | H]; [congruence | right; split; congruence].
Qed.

Lemma firsts_NoDup (l : list string) : List.NoDup (firsts l).
Proof.
  induction l as [| y l IH]; simpl; constructor.
  - rewrite List.filter_In, String.eqb_refl. intros [_ H]. discriminate H.
  - now apply List.NoDup_filter.
Qed.

Lemma firsts_snoc (x : string) (l : list string) :
  firsts (l ++ [x])
  = if List.existsb (String.eqb x) l then firsts l else firsts l ++ [x].
Proof.
  induction l as [| y l IH]; simpl; [reflexivity |].
  rewrite IH. destruct (String.eqb_spec x y) as [-> | Hne]; simpl.
  - destruct (List.existsb (String.eqb y) l); [reflexivity |].
    rewrite List.filter_app. simpl. rewrite String.eqb_refl. simpl.
    now rewrite List.app_nil_r.
  - destruct (List.existsb (String.eqb x) l); [reflexivity |].
    rewrite List.filter_app. simpl.
    apply String.eqb_neq in Hne. now rewrite Hne.
Qed.

Lemma of_state_snoc (k : string) (items : list CartPlace) (p : CartPlace) :
  of_state k (items ++ [p])
  = of_state k items ++ (if String.eqb (state p) k then [p] else []).
Proof. unfold of_state. now rewrite List.filter_app. Qed.

(** One step of the loop of [$groupedByState] on a table with distinct keys. *)
Lemma group_push_table (k : string) (item : CartPlace)
    (f : string -> list CartPlace) (K : list string) :
  List.NoDup K ->
  group_push k item (List.map (fun k' => (k', f k')) K)
  = if List.existsb (String.eqb k) K
    then Some (List.map
                 (fun k' => (k', f k' ++ (if String.eqb k k' then [item] else [])))
                 K)
    else if List.existsb (String.eqb k) Object_prototype_keys then None
    else Some (List.map (fun k' => (k', f k')) K ++ [(k, [item])]).
Proof.
  induction K as [| k0 K IH]; intros Hnd; [reflexivity |].
  apply List.NoDup_cons_iff in Hnd as [Hk0 Hnd].
  cbn [List.map group_push List.existsb]. rewrite (String.eqb_sym k k0).
  destruct (String.eqb_spec k0 k) as [-> | Hne]; cbn [orb].
  - f_equal. f_equal. apply List.map_ext_in. intros k' Hk'.
    destruct (String.eqb_spec k k') as [-> | _]; [contradiction |].
    now rewrite List.app_nil_r.
  - rewrite (IH Hnd), List.app_nil_r.
    destruct (List.existsb (String.eqb k) K); [reflexivity |].
    now destruct (List.existsb (String.eqb k) Object_prototype_keys).
Qed.

Lemma groupedByState_snoc (items : list CartPlace) (p : CartPlace) :
  groupedByState (items ++ [p])
  = match groupedByState items with
    | Some groups => group_push (state p) p groups
    | None => None
    end.
Proof. unfold groupedByState. now rewrite List.fold_left_app. Qed.

Lemma of_state_unseen (k : string) (items : list CartPlace) :
  ~ In k (List.map state items) -> of_state k items = [].
Proof.
  unfold of_state. induction items as [| q items IH]; simpl; [reflexivity |].
  intros Hnot. destruct (String.eqb_spec (state q) k) as [Heq | Hne].
  - exfalso. apply Hnot. now left.
  - apply IH. intros Hin. apply Hnot. now right.
Qed.

(** What the loop of [$groupedByState] computes: it throws when the state of
    some entry is an inherited name, and otherwise builds [grouping]. *)
Lemma groupedByState_run (items : list CartPlace) :
  groupedByState items
  = if List.existsb inherited_state items then None else Some (grouping items).
Proof.
  induction items as [| p items IH] using List.rev_ind; [reflexivity |].
  rewrite groupedByState_snoc, IH, List.existsb_app. cbn [List.existsb].
  rewrite Bool.orb_false_r.
  destruct (List.existsb inherited_state items) eqn:Einh; [reflexivity |].
  cbn [orb]. unfold grouping.
  rewrite group_push_table by apply firsts_NoDup.
  rewrite (List.map_app state). cbn [List.map]. rewrite firsts_snoc.
  rewrite (existsb_eqb_iff (state p) (firsts (List.map state items))
             (List.map state items)) by apply firsts_In.
  destruct (List.existsb (String.eqb (state p)) (List.map state items)) eqn:Eseen.
  - assert (Hnot : inherited_state p = false).
    { apply existsb_eqb_In, List.in_map_iff in Eseen as [q [Hq Hin]].
      destruct (inherited_state p) eqn:Ep; [| reflexivity].
      assert (Hex : List.existsb inherited_state items = true).
      { apply List.existsb_exists. exists q. split; [assumption |].
        unfold inherited_state in *. now rewrite Hq. }
      congruence. }
    rewrite Hnot. f_equal. apply List.map_ext. intros k.
    now rewrite of_state_snoc.
  - fold (inherited_state p). destruct (inherited_state p); [reflexivity |].
    f_equal. rewrite List.map_app. cbn [List.map].
    rewrite of_state_snoc, String.eqb_refl.
    assert (Hunseen : ~ In (state p) (List.map state items)).
    { intros Hin. apply existsb_eqb_In in Hin. congruence. }
    rewrite (of_state_unseen _ _ Hunseen). cbn [app]. f_equal.
    apply List.map_ext_in. intros k Hk.
    apply (proj1 (firsts_In _ _)) in Hk.
    rewrite of_state_snoc.
    destruct (String.eqb_spec (state p) k) as [Heq | _];
      [exfalso; apply Hunseen; now rewrite Heq |].
    now rewrite List.app_nil_r.
Qed.

(** X1: [$groupedByState] throws exactly when the state of some entry is a
    name that every object inherits ([constructor], [toString], ...): for
    such a key the inherited value stands where a list was expected. *)
Theorem groupedByState_throws (items : list CartPlace) :
  groupedByState items = None
  <-> exists p, In p items /\ In (state p) Object_prototype_keys.
Proof.
  rewrite groupedByState_run.
  destruct (List.existsb inherited_state items) eqn:E.
  - split; [intros _ | reflexivity].
    apply List.existsb_exists in E as [p [Hin Hp]].
    exists p. split; [assumption |]. now apply existsb_eqb_In.
  - split; [discriminate |].
    intros [p [Hin Hp]].
    assert (List.existsb inherited_state items = true); [| congruence].
    apply List.existsb_exists. exists p. split; [assumption |].
    now apply existsb_eqb_In.
Qed.

Lemma of_state_In (k : string) (items : list CartPlace) (p : CartPlace) :
  In p (of_state k items) <-> In p items /\ state p = k.
Proof. unfold of_state. now rewrite List.filter_In, String.eqb_eq. Qed.

Lemma of_state_seen (k : string) (items : list CartPlace) :
  In k (List.map state items) -> of_state k items <> [].
Proof.
  intros Hin Hnil. apply List.in_map_iff in Hin as [p [Hp Hin]].
  assert (H : In p (of_state k items)) by now apply of_state_In.
  rewrite Hnil in H. contradiction.
Qed.

(** Spreading a list over a table of distinct keys that covers it loses and
    repeats nothing. *)
Lemma of_state_table_perm (K : list string) (items : list CartPlace) :
  List.NoDup K ->
  (forall p, In p items -> In (state p) K) ->
  Permutation (List.concat (List.map (fun k => of_state k items) K)) items.
Proof.
  intros Hnd. induction items as [| p items IH]; intros Hcover.
  - clear Hnd Hcover. induction K as [| k K IHK]; [reflexivity | exact IHK].
  - assert (Hp : In (state p) K) by (apply Hcover; now left).
    assert (IH' : Permutation
                    (List.concat (List.map (fun k => of_state k items) K)) items).
    { apply IH. intros q Hq. apply Hcover. now right. }
    rewrite <- IH'. clear IH IH' Hcover.
    induction K as [| k K IHK]; [contradiction |].
    apply List.NoDup_cons_iff in Hnd as [Hk Hnd].
    cbn [List.map List.concat]. unfold of_state at 1. cbn [List.filter].
    destruct (String.eqb_spec (state p) k) as [Heq | Hne].
    + cbn [app]. apply perm_skip. apply Permutation_app_head.
      replace (List.map (fun k0 => of_state k0 (p :: items)) K)
        with (List.map (fun k0 => of_state k0 items) K); [reflexivity |].
      apply List.map_ext_in. intros k' Hk'. unfold of_state. cbn [List.filter].
      destruct (String.eqb_spec (state p) k') as [Heq' | _]; [| reflexivity].
      exfalso. apply Hk. congruence.
    + destruct Hp as [Hp | Hp]; [congruence |].
      fold (of_state k items).
      rewrite (IHK Hnd Hp). symmetry. apply Permutation_middle.
Qed.

Lemma Zsum_lengths {A : Type} (ls : list (list A)) :
  Zsum (List.map (fun l => Z.of_nat (length l)) ls)
  = Z.of_nat (length (List.concat ls)).
Proof.
  induction ls as [| l ls IH]; [reflexivity |].
  cbn [List.map List.concat]. rewrite List.length_app, Nat2Z.inj_add, <- IH.
  reflexivity.
Qed.

(** X3: when [$groupedByState] returns, the groups together hold the entries
    of the cart, each exactly once, so the sizes shown in the group headers
    add up to [$cartCount]. *)
Theorem groupedByState_partition (items : list CartPlace)
    (groups : list (string * list CartPlace)) :
  groupedByState items = Some groups ->
  Permutation (List.concat (List.map snd groups)) items
  /\ Zsum (List.map (fun g => Z.of_nat (length (snd g))) groups)
     = cartCount items.
Proof.
  rewrite groupedByState_run.
  destruct (List.existsb inherited_state items); [discriminate |].
  intros [= <-]. unfold grouping. rewrite List.map_map. cbn [snd].
  assert (Hperm : Permutation
                    (List.concat
                       (List.map (fun k => of_state k items)
                                 (firsts (List.map state items))))
                    items).
  { apply of_state_table_perm; [apply firsts_NoDup |].
    intros p Hp. apply firsts_In. now apply List.in_map. }
  split; [exact Hperm |].
  unfold cartCount. rewrite <- (Permutation_length Hperm).
  rewrite List.map_map. cbn [snd].
  rewrite <- Zsum_lengths, List.map_map. reflexivity.
Qed.

Lemma groupedByState_partition_witness :
  Zsum (List.map (fun g => Z.of_nat (length (snd g)))
          [("Assam", [sample_P1; sample_P3]); ("Meghalaya", [sample_P2])])
  = cartCount [sample_P1; sample_P2; sample_P3].
Proof.
  apply (groupedByState_partition [sample_P1; sample_P2; sample_P3]).
  reflexivity.
Defined.

(* ------------------------------------------------------------------ *)
(** ** Composing the actions *)
(* ------------------------------------------------------------------ *)

Lemma addToCart_present (P : Platform) (p : CartPlace) (w : World) :
  List.existsb (fun q => String.eqb (id q) (id p)) (cartItems (store w)) = true ->
  addToCart P p w = (Normal tt, w).
Proof. intros E. js_unfold. now rewrite E. Qed.

Lemma existsb_id_snoc (p : CartPlace) (items : list CartPlace) :
  List.existsb (fun q => String.eqb (id q) (id p)) (items ++ [p]) = true.
Proof.
  rewrite List.existsb_app. cbn [List.existsb].
  now rewrite String.eqb_refl, Bool.orb_true_r.
Qed.

(** X4: [addToCart] is idempotent on the whole world: adding the same place
    a second time changes neither the atoms nor the storage, whatever the
    storage answered the first time. *)
Theorem addToCart_twice (P : Platform) (p : CartPlace) (w : World) :
  addToCart P p (snd (addToCart P p w)) = (Normal tt, snd (addToCart P p w)).
Proof.
  apply addToCart_present.
  change (addToCart P p w) with (perform P (AddToCart p) w).
  rewrite (proj2 (perform_store P (AddToCart p) w)).
  destruct (List.existsb _ (cartItems (store w))) eqn:E; [exact E |].
  cbn [cartItems]. apply existsb_id_snoc.
Qed.

Lemma filter_id_snoc (p : CartPlace) (items : list CartPlace) :
  List.filter (fun q => negb (String.eqb (id q) (id p))) (items ++ [p])
  = List.filter (fun q => negb (String.eqb (id q) (id p))) items.
Proof.
  rewrite List.filter_app. cbn [List.filter].
  now rewrite String.eqb_refl, List.app_nil_r.
Qed.

Lemma handleClick_store (P : Platform) (p : CartPlace) (w : World) :
  store (snd (handleClick P p w))
  = store (snd (perform P
                  (if List.existsb (fun q => String.eqb (id q) (id p))
                                   (cartItems (store w))
                   then RemoveFromCart (id p) else AddToCart p) w)).
Proof.
  unfold handleClick, mbind, Js_bind, bind, get_store.
  now destruct (List.existsb _ (cartItems (store w))).
Qed.

(** X5: two clicks on the button of a place that is not in the cart add it
    and remove it again: the entries are back as they were, but the sidebar
    stays open and a hub selected by the first click stays selected. *)
Theorem handleClick_twice (P : Platform) (p : CartPlace) (w : World) :
  ~ In (id p) (List.map id (cartItems (store w))) ->
  let w1 := snd (handleClick P p w) in
  let w2 := snd (handleClick P p w1) in
  cartItems (store w1) = cartItems (store w) ++ [p]
  /\ cartItems (store w2) = cartItems (store w)
  /\ sidebarOpen (store w2) = true
  /\ selectedHub (store w2) = selectedHub (store w1).
Proof.
  intros Hnew. cbv zeta.
  assert (E : List.existsb (fun q => String.eqb (id q) (id p))
                           (cartItems (store w)) = false).
  { destruct (List.existsb _ (cartItems (store w))) eqn:E; [| reflexivity].
    apply existsb_id_In in E. contradiction. }
  assert (H1 : store (snd (handleClick P p w))
               = {| cartItems := cartItems (store w) ++ [p];
                    selectedHub :=
                      if truthy_string (selectedHub (store w))
                      then selectedHub (store w)
                      else List.hd (selectedHub (store w))
                                   (availableHubs (cartItems (store w) ++ [p]));
                    sidebarOpen := true |}).
  { rewrite handleClick_store, E, (proj2 (perform_store P _ w)). now rewrite E. }
  rewrite (handleClick_store P p (snd (handleClick P p w))), H1.
  cbn [cartItems]. rewrite existsb_id_snoc.
  rewrite (proj2 (perform_store P _ _)), H1. cbn [cartItems selectedHub sidebarOpen].
  rewrite filter_id_snoc, (filter_other_ids _ _ Hnew).
  repeat split.
Qed.

Lemma handleClick_twice_witness :
  cartItems (store (snd (handleClick sample_platform sample_P3
                           (snd (handleClick sample_platform sample_P3 busy_world)))))
  = cartItems (store busy_world).
Proof.
  apply (handleClick_twice sample_platform sample_P3 busy_world).
  simpl. intros [H | []]. discriminate H.
Defined.

Lemma availableHubs_In (items : list CartPlace) (h : string) :
  In h (availableHubs items) <-> In h (hub_refs items).
Proof.
  destruct (count_names_spec (hub_refs items)) as (_ & Hin & _ & _).
  rewrite <- hubCount_refs in Hin. rewrite <- Hin.
  split; apply Permutation_in; [| symmetry]; apply availableHubs_perm.
Qed.

Lemma row_count_nonneg (items : list CartPlace) (h : string) :
  0 <= row_count items h.
Proof. unfold row_count. lia. Qed.

(** The first of the available hubs is named by the cart and no hub is
    named by more logistics entries. *)
Lemma availableHubs_head (items : list CartPlace) (h : string)
    (rest : list string) :
  availableHubs items = h :: rest ->
  In h (hub_refs items) /\ forall h', row_count items h' <= row_count items h.
Proof.
  intros Eq.
  assert (Hh : In h (hub_refs items)).
  { apply availableHubs_In. rewrite Eq. now left. }
  split; [assumption |]. intros h'.
  destruct (List.in_dec string_dec h' (availableHubs items)) as [Hin | Hout].
  - pose proof (availableHubs_sorted items) as Hs. rewrite Eq in Hs, Hin.
    apply StronglySorted_inv in Hs as [_ Hall].
    rewrite List.Forall_forall in Hall.
    destruct Hin as [<- | Hin]; [lia |].
    destruct (Hall h' Hin) as [H | [H _]]; lia.
  - assert (Hzero : row_count items h' = 0).
    { unfold row_count.
      rewrite (proj1 (List.count_occ_not_In string_dec _ h')); [reflexivity |].
      intros Hin. apply Hout. now apply availableHubs_In. }
    rewrite Hzero. apply row_count_nonneg.
Qed.

(** X6: when [addToCart] adds a new place while no hub is selected and the
    new cart names some hub, the hub it selects is named by the new cart and
    no hub is named by more of its logistics entries; when no entry of the
    new cart names a hub twice, no hub is referenced by more of its
    entries. *)
Theorem addToCart_selects_best_hub (P : Platform) (p : CartPlace) (w : World) :
  ~ In (id p) (List.map id (cartItems (store w))) ->
  selectedHub (store w) = EmptyString ->
  hub_refs (cartItems (store w) ++ [p]) <> [] ->
  let next := cartItems (store w) ++ [p] in
  let h := selectedHub (store (snd (addToCart P p w))) in
  In h (hub_refs next)
  /\ (forall h', row_count next h' <= row_count next h)
  /\ (hubs_once next -> forall h', coverage next h' <= coverage next h).
Proof.
  intros Hnew Hnone Hrefs. cbv zeta.
  change (addToCart P p w) with (perform P (AddToCart p) w).
  rewrite (proj2 (perform_store P (AddToCart p) w)).
  destruct (List.existsb _ (cartItems (store w))) eqn:E.
  { apply existsb_id_In in E. contradiction. }
  cbn [selectedHub]. rewrite Hnone. cbn [truthy_string].
  destruct (availableHubs (cartItems (store w) ++ [p])) as [| h rest] eqn:Eh.
  - exfalso. destruct (hub_refs (cartItems (store w) ++ [p])) as [| r refs] eqn:Er;
      [now apply Hrefs |].
    assert (Hin : In r (availableHubs (cartItems (store w) ++ [p]))).
    { apply availableHubs_In. rewrite Er. now left. }
    rewrite Eh in Hin. contradiction.
  - cbn [List.hd]. destruct (availableHubs_head _ _ _ Eh) as [Hin Hmax].
    split; [exact Hin | split; [exact Hmax |]].
    intros Honce h'. rewrite <- !(row_count_coverage _ _ Honce). apply Hmax.
Qed.

Lemma addToCart_selects_best_hub_witness :
  coverage [sample_P3] "Guwahati Airport"
  <= coverage [sample_P3]
       (selectedHub (store (snd (addToCart sample_platform sample_P3 empty_world)))).
Proof.
  refine (proj2 (proj2 (addToCart_selects_best_hub
                          sample_platform sample_P3 empty_world _ _ _))
            _ "Guwahati Airport").
  - intros [].
  - reflexivity.
  - discriminate.
  - intros item [<- | []]. simpl.
    repeat (constructor; [simpl; intuition discriminate |]); constructor.
Defined.

(* ------------------------------------------------------------------ *)
(** ** Persistence *)
(* ------------------------------------------------------------------ *)

Lemma key_names_differ : STORAGE_KEY <> HUB_KEY.
Proof. discriminate. Qed.

(** X7: on a storage that accepts every write, each of the five actions
    keeps the storage in step with the atoms: after the action the cart key
    holds the serialised entries and the hub key holds the selected hub (a
    key that was never written standing for the empty cart or no hub). *)
Theorem actions_keep_storage_in_sync (P : Platform) (a : Action) (w : World) :
  (forall sto k v, setItem_throws P sto k v = false) ->
  in_sync P w ->
  in_sync P (snd (perform P a w)).
Proof.
  intros Hok. destruct w as [[items hub side] sto].
  unfold in_sync. cbn [store localStorage cartItems selectedHub].
  intros [Hcart Hhub].
  destruct a as [place | i | | h |].
  - js_unfold. cbn [store localStorage cartItems selectedHub sidebarOpen fst snd].
    destruct (List.existsb _ items); cbn [fst snd store localStorage cartItems selectedHub];
      [split; assumption |].
    rewrite Hok. cbn [fst snd store localStorage cartItems selectedHub sidebarOpen].
    destruct hub as [| c hub'];
      cbn [truthy_string negb fst snd store localStorage cartItems selectedHub].
    + destruct (availableHubs (items ++ [place])) as [| h0 hubs];
        cbn [fst snd store localStorage cartItems selectedHub sidebarOpen].
      * split; [left; apply lookup_insert_eq |].
        rewrite lookup_insert_ne by discriminate. exact Hhub.
      * rewrite Hok. cbn [fst snd store localStorage cartItems selectedHub].
        split; [left | left; apply lookup_insert_eq].
        rewrite lookup_insert_ne by discriminate. apply lookup_insert_eq.
    + split; [left; apply lookup_insert_eq |].
      rewrite lookup_insert_ne by discriminate. exact Hhub.
  - js_unfold. cbn [store localStorage cartItems selectedHub sidebarOpen fst snd].
    rewrite Hok. cbn [fst snd store localStorage cartItems selectedHub].
    split; [left; apply lookup_insert_eq |].
    rewrite lookup_insert_ne by discriminate. exact Hhub.
  - js_unfold. cbn [store localStorage cartItems selectedHub sidebarOpen fst snd].
    rewrite Hok. cbn [fst snd store localStorage cartItems selectedHub].
    rewrite Hok. cbn [fst snd store localStorage cartItems selectedHub].
    split; [left | left; apply lookup_insert_eq].
    rewrite lookup_insert_ne by discriminate. apply lookup_insert_eq.
  - js_unfold. cbn [store localStorage cartItems selectedHub sidebarOpen fst snd].
    rewrite Hok. cbn [fst snd store localStorage cartItems selectedHub].
    split; [| left; apply lookup_insert_eq].
    rewrite lookup_insert_ne by discriminate. exact Hcart.
  - js_unfold. cbn [store localStorage cartItems selectedHub sidebarOpen fst snd].
    split; assumption.
Qed.

Lemma actions_keep_storage_in_sync_witness :
  in_sync sample_platform
    (snd (perform sample_platform (AddToCart sample_P3) busy_world)).
Proof.
  apply (actions_keep_storage_in_sync sample_platform (AddToCart sample_P3) busy_world).
  - reflexivity.
  - split; left; reflexivity.
Defined.

(** X8: when the storage is in step with the atoms and the serialised cart
    is a non-empty text that [JSON.parse] reads back, [loadFromStorage] on
    fresh atoms restores the entries and the selected hub; the sidebar flag
    is not restored (it starts closed) and the storage is left as it is. *)
Theorem loadFromStorage_restores (P : Platform) (w : World) :
  in_sync P w ->
  JSON_stringify P (cartItems (store w)) <> EmptyString ->
  JSON_parse P (JSON_stringify P (cartItems (store w)))
    = Some (cartItems (store w)) ->
  loadFromStorage P (fresh_world (localStorage w))
  = (Normal tt,
     {| store := {| cartItems := cartItems (store w);
                    selectedHub := selectedHub (store w);
                    sidebarOpen := false |};
        localStorage := localStorage w |}).
Proof.
  destruct w as [[items hub side] sto].
  unfold in_sync, fresh_world, initial_store.
  cbn [store localStorage cartItems selectedHub].
  intros [Hcart Hhub] Htext Hparse. js_unfold.
  cbn [store localStorage cartItems selectedHub sidebarOpen fst snd].
  destruct Hcart as [-> | [-> ->]].
  - destruct (JSON_stringify P items) as [| c text] eqn:Etext; [congruence |].
    cbn [truthy_string]. rewrite Hparse. simpl.
    destruct Hhub as [-> | [-> ->]]; [destruct hub |]; reflexivity.
  - simpl. destruct Hhub as [-> | [-> ->]]; [destruct hub |]; reflexivity.
Qed.

Lemma loadFromStorage_restores_witness :
  loadFromStorage sample_platform (fresh_world (localStorage busy_world))
  = (Normal tt,
     {| store := {| cartItems := [sample_P1];
                    selectedHub := "Guwahati Airport";
                    sidebarOpen := false |};
        localStorage := localStorage busy_world |}).
Proof.
  apply (loadFromStorage_restores sample_platform busy_world).
  - split; left; reflexivity.
  - discriminate.
  - reflexivity.
Defined.

(** X9: [loadFromStorage] never throws, whatever the storage holds and
    whatever the atoms are: an unreadable cart is swallowed.  It writes
    nothing to the storage and leaves the sidebar flag alone. *)
Theorem loadFromStorage_frame (P : Platform) (w : World) :
  fst (loadFromStorage P w) = Normal tt
  /\ localStorage (snd (loadFromStorage P w)) = localStorage w
  /\ sidebarOpen (store (snd (loadFromStorage P w))) = sidebarOpen (store w).
Proof.
  destruct w as [[items hub side] sto]. js_unfold.
  cbn [store localStorage cartItems selectedHub sidebarOpen fst snd].
  destruct (sto !! STORAGE_KEY) as [raw |];
    [destruct (truthy_string raw); [destruct (JSON_parse P raw) |] |];
    cbn [store localStorage cartItems selectedHub sidebarOpen fst snd];
    try (destruct (sto !! HUB_KEY) as [h |]; [destruct (truthy_string h) |]);
    repeat split.
Qed.

Ltac storage_key_cases k :=
  destruct (decide (k = STORAGE_KEY)) as [-> | ?];
  [| destruct (decide (k = HUB_KEY)) as [-> | ?]];
  rewrite ?lookup_insert_eq, ?(lookup_insert_ne _ HUB_KEY STORAGE_KEY),
    ?(lookup_insert_ne _ STORAGE_KEY HUB_KEY), ?lookup_insert_eq
    by discriminate;
  repeat (rewrite lookup_insert_ne by congruence);
  auto.

(** X10: whatever the storage answers to the writes of an action, every key
    afterwards holds either what it held before or the value that is in step
    with the new atoms: only the cart key and the hub key are ever written,
    and never with anything but the serialised entries and the selected
    hub. *)
Theorem storage_stale_or_in_step (P : Platform) (a : Action) (w : World)
    (k : string) :
  let w' := snd (perform P a w) in
  localStorage w' !! k = localStorage w !! k
  \/ (k = STORAGE_KEY
      /\ localStorage w' !! k = Some (JSON_stringify P (cartItems (store w'))))
  \/ (k = HUB_KEY
      /\ localStorage w' !! k = Some (selectedHub (store w'))).
Proof.
  destruct w as [[items hub side] sto]. cbv zeta.
  destruct a as [place | i | | h |].
  - js_unfold. cbn [store localStorage cartItems selectedHub sidebarOpen fst snd].
    destruct (List.existsb _ items); [now left |].
    destruct hub as [| c hub']; js_run; storage_key_cases k.
  - js_run; storage_key_cases k.
  - js_run; storage_key_cases k.
  - js_run; storage_key_cases k.
  - js_run; storage_key_cases k.
Qed.

(* ------------------------------------------------------------------ *)
(** ** The total and the order of the cart *)
(* ------------------------------------------------------------------ *)

Lemma totalDriveMins_Zsum (items : list CartPlace) (h : string) :
  totalDriveMins items h
  = if truthy_string h then Zsum (List.map (contribution h) items) else 0.
Proof.
  unfold totalDriveMins. destruct (truthy_string h); [| reflexivity].
  cbn [negb]. rewrite total_loop. lia.
Qed.

Lemma Zsum_app (l1 l2 : list Z) : Zsum (l1 ++ l2) = Zsum l1 + Zsum l2.
Proof. induction l1 as [| x l1 IH]; simpl in *; lia. Qed.

Lemma Zsum_perm (l1 l2 : list Z) : Permutation l1 l2 -> Zsum l1 = Zsum l2.
Proof. induction 1; simpl in *; lia. Qed.

Lemma Zsum_abs (l : list Z) :
  Z.abs (Zsum l) <= Zsum (List.map Z.abs l) /\ 0 <= Zsum (List.map Z.abs l).
Proof. induction l as [| x l IH]; simpl in *; lia. Qed.

(** X11: the drive times being integers, when the sizes of what the entries
    add for the hub are at most [2 ^ 53] together, every running total of
    the loop, in whatever order the cart is, stays within [2 ^ 53] in size,
    where numbers hold integers exactly.  Then [$totalDriveMins] does not
    depend on the order of the cart, the total of a cart is the sum of the
    totals of its two ends, and when the cart is grouped by state the totals
    of the groups add up to the total of the cart. *)
Theorem totalDriveMins_regroup (items : list CartPlace) (h : string) :
  within_safe_integers items h ->
  (forall items' front back,
      Permutation items items' -> items' = front ++ back ->
      Z.abs (totalDriveMins front h) <= MAX_SAFE)
  /\ (forall items', Permutation items items' ->
                     totalDriveMins items' h = totalDriveMins items h)
  /\ (forall items1 items2,
        items = items1 ++ items2 ->
        totalDriveMins items h
        = totalDriveMins items1 h + totalDriveMins items2 h)
  /\ (forall groups,
        groupedByState items = Some groups ->
        Zsum (List.map (fun g => totalDriveMins (snd g) h) groups)
        = totalDriveMins items h).
Proof.
  intros Hsafe.
  assert (Hperm : forall l l', Permutation l l' ->
                               totalDriveMins l' h = totalDriveMins l h).
  { intros l l' Hp. rewrite !totalDriveMins_Zsum.
    destruct (truthy_string h); [| reflexivity].
    symmetry. now apply Zsum_perm, Permutation_map. }
  assert (Happ : forall l1 l2,
            totalDriveMins (l1 ++ l2) h
            = totalDriveMins l1 h + totalDriveMins l2 h).
  { intros l1 l2. rewrite !totalDriveMins_Zsum.
    destruct (truthy_string h); [| reflexivity].
    now rewrite List.map_app, Zsum_app. }
  split; [| split; [apply Hperm | split; [intros l1 l2 ->; apply Happ |]]].
  - intros items' front back Hp ->. unfold within_safe_integers in Hsafe.
    rewrite (Zsum_perm _ _ (Permutation_map _ Hp)) in Hsafe.
    rewrite List.map_app, Zsum_app in Hsafe.
    rewrite totalDriveMins_Zsum.
    pose proof (Zsum_abs (List.map (contribution h) front)) as [Hf _].
    pose proof (Zsum_abs (List.map (contribution h) back)) as [_ Hb].
    rewrite !List.map_map in Hf, Hb.
    destruct (truthy_string h); [lia |].
    unfold MAX_SAFE. simpl. lia.
  - intros groups Hg.
    assert (Hconcat : forall ls,
              Zsum (List.map (fun l => totalDriveMins l h) ls)
              = totalDriveMins (List.concat ls) h).
    { induction ls as [| l ls IH]; cbn [List.map List.concat].
      - now rewrite totalDriveMins_Zsum; destruct (truthy_string h).
      - rewrite Happ, <- IH. reflexivity. }
    rewrite groupedByState_run in Hg.
    destruct (List.existsb inherited_state items); [discriminate |].
    injection Hg as <-. unfold grouping. rewrite List.map_map. cbn [snd].
    rewrite <- (List.map_map (fun k => of_state k items)
                             (fun l => totalDriveMins l h)), Hconcat.
    apply Hperm. symmetry. apply of_state_table_perm; [apply firsts_NoDup |].
    intros p Hp. apply firsts_In. now apply List.in_map.
Qed.

Lemma totalDriveMins_regroup_witness :
  Zsum (List.map (fun g => totalDriveMins (snd g) "Guwahati Airport")
          [("Assam", [sample_P1; sample_P3]); ("Meghalaya", [sample_P2])])
  = totalDriveMins [sample_P1; sample_P2; sample_P3] "Guwahati Airport".
Proof.
  refine (proj2 (proj2 (proj2
            (totalDriveMins_regroup [sample_P1; sample_P2; sample_P3]
               "Guwahati Airport" _))) _ _).
  - vm_compute. discriminate.
  - reflexivity.
Defined.

(* ------------------------------------------------------------------ *)
(** ** The groups of the itinerary *)
(* ------------------------------------------------------------------ *)

Lemma index_entries_snd {V : Type} (entries : list (string * V)) :
  List.map snd (index_entries entries)
  = List.filter
      (fun e => match array_index (fst e) with Some _ => true | None => false end)
      entries.
Proof.
  unfold index_entries. induction entries as [| e entries IH]; [reflexivity |].
  cbn [List.flat_map List.filter].
  destruct (array_index (fst e)); cbn [app List.map snd]; now rewrite IH.
Qed.

Lemma filter_split_perm {A : Type} (f g : A -> bool) (l : list A) :
  (forall x, g x = negb (f x)) ->
  Permutation (List.filter f l ++ List.filter g l) l.
Proof.
  intros Hfg. induction l as [| x l IH]; [reflexivity |].
  cbn [List.filter]. rewrite (Hfg x). destruct (f x); cbn [negb app].
  - now apply perm_skip.
  - rewrite <- Permutation_middle. now apply perm_skip.
Qed.

Lemma Object_entries_perm {V : Type} (entries : list (string * V)) :
  Permutation (Object_entries entries) entries.
Proof.
  unfold Object_entries.
  rewrite (Permutation_map snd (Array_sort_perm _ (index_entries entries))).
  rewrite index_entries_snd. apply filter_split_perm.
  intros e. now destruct (array_index (fst e)).
Qed.

Lemma Object_entries_plain {V : Type} (entries : list (string * V)) :
  (forall e, In e entries -> array_index (fst e) = None) ->
  Object_entries entries = entries.
Proof.
  intros Hplain. unfold Object_entries, index_entries.
  induction entries as [| e entries IH]; [reflexivity |].
  cbn [List.flat_map List.filter]. rewrite (Hplain e) by now left.
  cbn [app]. rewrite <- IH at 3; [| intros e' He'; apply Hplain; now right].
  set (sorted := List.map snd _).
  assert (Hnil : sorted = []).
  { subst sorted. clear IH.
    induction entries as [| e' entries IH']; [reflexivity |].
    cbn [List.flat_map]. rewrite (Hplain e') by (right; now left).
    apply IH'. intros e'' [<- | He'']; apply Hplain; [now left | right; now right]. }
  rewrite Hnil. reflexivity.
Qed.

(** A key that does not begin with a digit is not an array index. *)
Lemma array_index_not_digit (c : ascii) (k : string) :
  digit_value c = None -> array_index (String c k) = None.
Proof.
  intros Hc. unfold array_index. cbn [list_ascii_of_string List.fold_left].
  rewrite Hc.
  assert (Hnone : forall l,
            List.fold_left
              (fun (acc : option Z) (c0 : ascii) =>
                 match acc, digit_value c0 with
                 | Some a, Some d => Some (10 * a + d)
                 | _, _ => None
                 end) l None = None).
  { induction l as [| x l IH]; [reflexivity | exact IH]. }
  now rewrite Hnone.
Qed.

(** An object lists the keys written like array indices first, in
    increasing order, whenever they were created: a cart whose states are
    "Assam", "10" and "2" is grouped under "2", "10", "Assam". *)
Example groupedByState_index_keys_first :
  option_map (fun groups => List.map fst (Object_entries groups))
             (groupedByState numbered_states_cart)
  = Some ["2"; "10"; "Assam"]
  /\ firsts (List.map state numbered_states_cart) = ["Assam"; "10"; "2"].
Proof. split; vm_compute; reflexivity. Qed.

(** X2: when [$groupedByState] returns, the keys of the groups are the states
    of the cart, each once; the group of a state holds exactly the entries
    of that state, in cart order, and is never empty; every entry is in the
    group of its state.  Enumerated with [Object_entries], the keys are the
    states in some order, and in the order they are first met when no state
    of the cart is written like an array index. *)
Theorem groupedByState_groups (items : list CartPlace)
    (groups : list (string * list CartPlace)) :
  groupedByState items = Some groups ->
  List.NoDup (List.map fst groups)
  /\ (forall k, In k (List.map fst groups) <-> In k (List.map state items))
  /\ (forall k ps, In (k, ps) groups -> ps = of_state k items /\ ps <> [])
  /\ (forall p, In p items ->
                In (state p, of_state (state p) items) groups
                /\ In p (of_state (state p) items))
  /\ Permutation (List.map fst (Object_entries groups))
                 (firsts (List.map state items))
  /\ ((forall p, In p items -> array_index (state p) = None) ->
      List.map fst (Object_entries groups) = firsts (List.map state items)).
Proof.
  rewrite groupedByState_run.
  destruct (List.existsb inherited_state items); [discriminate |].
  intros [= <-]. unfold grouping.
  assert (Hkeys : List.map fst
                    (List.map (fun k => (k, of_state k items))
                              (firsts (List.map state items)))
                  = firsts (List.map state items)).
  { rewrite List.map_map. cbn [fst]. apply List.map_id. }
  split; [rewrite Hkeys; apply firsts_NoDup |].
  split; [intros k; rewrite Hkeys; apply firsts_In |].
  split; [| split; [| split]].
  - intros k ps Hin. apply List.in_map_iff in Hin as [k' [[= <- <-] Hk']].
    split; [reflexivity |].
    apply of_state_seen. now apply firsts_In.
  - intros p Hp. split.
    + apply List.in_map_iff. exists (state p). split; [reflexivity |].
      apply firsts_In. now apply List.in_map.
    + now apply of_state_In.
  - rewrite <- Hkeys at 2. apply Permutation_map, Object_entries_perm.
  - intros Hplain. rewrite Object_entries_plain; [exact Hkeys |].
    intros e He. apply List.in_map_iff in He as [k [<- Hk]]. cbn [fst].
    apply firsts_In, List.in_map_iff in Hk as [p [<- Hp]]. now apply Hplain.
Qed.

Lemma groupedByState_groups_witness :
  List.map fst
    (Object_entries
       [("Assam", [sample_P1; sample_P3]); ("Meghalaya", [sample_P2])])
  = firsts (List.map state [sample_P1; sample_P2; sample_P3]).
Proof.
  refine (proj2 (proj2 (proj2 (proj2 (proj2
            (groupedByState_groups [sample_P1; sample_P2; sample_P3] _ _)))))
            _).
  - reflexivity.
  - intros p [<- | [<- | [<- | []]]]; reflexivity.
Defined.

(** X12: the itinerary goes through the groups of the cart, each once; and
    when no state of the cart is written like an array index (a state that
    begins with a letter never is), the groups come in the order their
    states are first met in the cart. *)
Theorem itinerary_group_order (items : list CartPlace)
    (groups : list (string * list CartPlace)) (hub : string) (totalMins : Z) :
  groupedByState items = Some groups ->
  Permutation (Object_entries groups) (grouping items)
  /\ ((forall p, In p items -> array_index (state p) = None) ->
      formatItineraryForWhatsApp groups hub totalMins
      = join newline (itinerary_lines (grouping items) hub totalMins)).
Proof.
  rewrite groupedByState_run.
  destruct (List.existsb inherited_state items); [discriminate |].
  intros [= <-]. split; [apply Object_entries_perm |].
  intros Hplain. unfold formatItineraryForWhatsApp.
  rewrite Object_entries_plain; [reflexivity |].
  intros e He. unfold grouping in He.
  apply List.in_map_iff in He as [k [<- Hk]]. cbn [fst].
  apply firsts_In, List.in_map_iff in Hk as [p [<- Hp]]. now apply Hplain.
Qed.

Lemma itinerary_group_order_witness :
  formatItineraryForWhatsApp
    [("Assam", [sample_P1; sample_P3]); ("Meghalaya", [sample_P2])]
    "Guwahati Airport" 70
  = join newline
      (itinerary_lines (grouping [sample_P1; sample_P2; sample_P3])
                       "Guwahati Airport" 70).
Proof.
  apply (itinerary_group_order [sample_P1; sample_P2; sample_P3]);
    [reflexivity |].
  intros p [<- | [<- | [<- | []]]]; reflexivity.
Defined.

Lemma group_lines_length (hub : string) (entries : list (string * list CartPlace)) :
  length (List.concat (List.map (group_lines hub) entries))
  = (2 * length entries + length (List.concat (List.map snd entries)))%nat.
Proof.
  induction entries as [| [k ps] entries IH]; [reflexivity |].
  cbn [List.map List.concat group_lines snd].
  rewrite !List.length_app, IH. cbn [length].
  rewrite List.length_app, List.length_map. cbn [length]. lia.
Qed.

Lemma concat_snd_perm {A B : Type} (l l' : list (A * list B)) :
  Permutation l l' ->
  Permutation (List.concat (List.map snd l)) (List.concat (List.map snd l')).
Proof.
  induction 1 as [| x l l' Hp IH | x y l | l l' l'' _ IH1 _ IH2];
    cbn [List.map List.concat].
  - reflexivity.
  - now apply Permutation_app_head.
  - rewrite !List.app_assoc. apply Permutation_app_tail, Permutation_app_comm.
  - now rewrite IH1.
Qed.

(** X13: when the cart can be grouped, the itinerary has a line for every
    entry of the cart, and nothing is lost or added: besides the title block,
    the closing line and the three lines of a selected hub, it has two lines
    for each state and one line for each entry. *)
Theorem itinerary_lists_every_entry (items : list CartPlace)
    (groups : list (string * list CartPlace)) (hub : string) (totalMins : Z) :
  groupedByState items = Some groups ->
  let lines := itinerary_lines (Object_entries groups) hub totalMins in
  (forall p, In p items -> In (place_line hub p) lines)
  /\ length lines
     = (3 + (if truthy_string hub then 3 else 0)
        + 2 * length (firsts (List.map state items)) + length items)%nat.
Proof.
  rewrite groupedByState_run.
  destruct (List.existsb inherited_state items); [discriminate |].
  intros [= <-]. cbv zeta.
  assert (Hperm : Permutation
                    (List.concat (List.map snd (Object_entries (grouping items))))
                    items).
  { rewrite (concat_snd_perm _ _ (Object_entries_perm (grouping items))).
    unfold grouping. rewrite List.map_map. cbn [snd].
    apply of_state_table_perm; [apply firsts_NoDup |].
    intros p Hp. apply firsts_In. now apply List.in_map. }
  split.
  - intros p Hp. unfold itinerary_lines.
    apply List.in_or_app. right. apply List.in_or_app. right.
    apply List.in_or_app. left.
    apply (Permutation_in _ (Permutation_sym Hperm)) in Hp.
    apply List.in_concat in Hp as [ps [Hps Hin]].
    apply List.in_map_iff in Hps as [[k ps'] [Heq He]]. cbn [snd] in Heq. subst ps'.
    apply List.in_concat. exists (group_lines hub (k, ps)).
    split; [now apply List.in_map |].
    cbn [group_lines]. right. apply List.in_or_app. left. now apply List.in_map.
  - unfold itinerary_lines. rewrite !List.length_app, group_lines_length.
    rewrite (Permutation_length Hperm).
    rewrite (Permutation_length (Object_entries_perm (grouping items))).
    unfold grouping. rewrite List.length_map.
    destruct (truthy_string hub); cbn [length]; lia.
Qed.

Lemma itinerary_lists_every_entry_witness :
  length (itinerary_lines
            (Object_entries
               [("Assam", [sample_P1; sample_P3]); ("Meghalaya", [sample_P2])])
            "Guwahati Airport" 70)
  = 13%nat.
Proof.
  apply (itinerary_lists_every_entry [sample_P1; sample_P2; sample_P3]).
  reflexivity.
Defined.

(* ------------------------------------------------------------------ *)
(** ** Slugs *)
(* ------------------------------------------------------------------ *)

Lemma slug_char_facts (c : ascii) :
  is_slug_char c = true ->
  Ascii.eqb c dash = false /\ to_lower c = c /\ to_lower (to_upper c) = c
  /\ is_slug_char (to_lower (to_upper c)) = true.
Proof.
  destruct c as [[] [] [] [] [] [] [] []]; vm_compute;
    intros H; try discriminate H; repeat split.
Qed.

Lemma not_slug_char_dash : is_slug_char dash = false.
Proof. reflexivity. Qed.

Lemma replace_runs_sparse (in_run : bool) (s : string) :
  sparse in_run (replace_runs in_run s) = true.
Proof.
  revert in_run. induction s as [| c r IH]; intros in_run; [reflexivity |].
  cbn [replace_runs]. destruct (is_slug_char c) eqn:Ec.
  - cbn [sparse]. rewrite Ec. apply IH.
  - destruct in_run; [apply IH |].
    cbn [sparse]. rewrite not_slug_char_dash, IH. reflexivity.
Qed.

Lemma drop_last_dash_empty (s : string) :
  drop_last_dash s = EmptyString ->
  s = EmptyString \/ s = String dash EmptyString.
Proof.
  destruct s as [| c [| c' r]]; cbn [drop_last_dash]; intros H.
  - now left.
  - right. destruct (Ascii.eqb_spec c dash) as [Heq | _];
      [now rewrite Heq | discriminate].
  - discriminate.
Qed.

Lemma drop_last_dash_sparse (b : bool) (s : string) :
  sparse b s = true ->
  sparse b (drop_last_dash s) = true
  /\ ends_with_dash (drop_last_dash s) = false.
Proof.
  revert b. induction s as [| c r IH]; intros b Hs; [split; reflexivity |].
  destruct (string_dec r EmptyString) as [-> | Hr].
  - cbn [drop_last_dash]. destruct (Ascii.eqb_spec c dash) as [Heq | Hne].
    + split; reflexivity.
    + split; [assumption |]. cbn [ends_with_dash].
      now destruct (Ascii.eqb_spec c dash).
  - assert (Hstep : drop_last_dash (String c r) = String c (drop_last_dash r))
      by (destruct r; [congruence | reflexivity]).
    rewrite Hstep. clear Hstep.
    cbn [sparse] in Hs. cbn [sparse]. destruct (is_slug_char c) eqn:Ec.
    + destruct (IH false Hs) as [Hsp Hend]. split; [assumption |].
      cbn [ends_with_dash]. destruct (drop_last_dash r); [| assumption].
      now apply slug_char_facts.
    + apply andb_prop in Hs as [Hs Hsr]. apply andb_prop in Hs as [Hc Hb].
      destruct (IH true Hsr) as [Hsp Hend]. rewrite Hc, Hb, Hsp.
      split; [reflexivity |].
      cbn [ends_with_dash]. destruct (drop_last_dash r) eqn:Ed; [| assumption].
      exfalso. apply drop_last_dash_empty in Ed as [Ed | Ed]; [contradiction |].
      rewrite Ed in Hsr. discriminate Hsr.
Qed.

Lemma sparse_weaken (b : bool) (s : string) :
  sparse b s = true -> sparse false s = true.
Proof.
  destruct s as [| c r]; [reflexivity |]. cbn [sparse].
  destruct (is_slug_char c); [trivial |].
  intros H. apply andb_prop in H as [H Hr]. apply andb_prop in H as [Hc _].
  now rewrite Hc, Hr.
Qed.

Lemma trim_edge_dashes_slug (s : string) :
  sparse false s = true -> is_slug (trim_edge_dashes s) = true.
Proof.
  intros Hs. unfold is_slug.
  assert (Hgoal : forall t, sparse true t = true ->
                            sparse true (drop_last_dash t)
                            && negb (ends_with_dash (drop_last_dash t)) = true).
  { intros t Ht. destruct (drop_last_dash_sparse true t Ht) as [H1 H2].
    now rewrite H1, H2. }
  destruct s as [| c r]; [reflexivity |]. cbn [trim_edge_dashes].
  cbn [sparse] in Hs. destruct (Ascii.eqb_spec c dash) as [Heq | Hne].
  - rewrite Heq, not_slug_char_dash in Hs. apply Hgoal.
    now apply andb_prop in Hs as [_ Hs].
  - apply Hgoal. cbn [sparse]. destruct (is_slug_char c); [assumption |].
    apply andb_prop in Hs as [Hs _]. apply andb_prop in Hs as [Hc _].
    now destruct (Ascii.eqb_spec c dash).
Qed.

Lemma slugify_is_slug (s : string) : is_slug (slugify s) = true.
Proof. apply trim_edge_dashes_slug, replace_runs_sparse. Qed.

Lemma sparse_chars (b : bool) (s : string) :
  sparse b s = true ->
  Forall (fun c => is_slug_char c = true \/ c = dash) (list_ascii_of_string s).
Proof.
  revert b. induction s as [| c r IH]; intros b Hs; [constructor |].
  cbn [sparse] in Hs. cbn [list_ascii_of_string].
  destruct (is_slug_char c) eqn:Ec.
  - constructor; [now left | now apply (IH false)].
  - apply andb_prop in Hs as [Hs Hr]. apply andb_prop in Hs as [Hc _].
    constructor; [right; now apply Ascii.eqb_eq | now apply (IH true)].
Qed.

Lemma sparse_no_double (b : bool) (s pre post : string) :
  sparse b s = true -> s <> pre +:+ String dash (String dash post).
Proof.
  revert b s. induction pre as [| c pre IH]; intros b s Hs Heq; subst s.
  - destruct b; cbn in Hs; discriminate Hs.
  - change (sparse b (String c (pre +:+ String dash (String dash post))) = true) in Hs.
    cbn [sparse] in Hs. destruct (is_slug_char c).
    + now apply (IH false _ Hs).
    + apply andb_prop in Hs as [_ Hs]. now apply (IH true _ Hs).
Qed.

Lemma ends_with_dash_suffix (s pre : string) :
  ends_with_dash s = false -> s <> pre +:+ String dash EmptyString.
Proof.
  revert s. induction pre as [| c pre IH]; intros s Hs Heq; subst s.
  - discriminate Hs.
  - change (ends_with_dash (String c (pre +:+ String dash EmptyString)) = false) in Hs.
    cbn [ends_with_dash] in Hs.
    destruct (pre +:+ String dash EmptyString) eqn:E.
    + destruct pre; discriminate E.
    + rewrite <- E in Hs. now apply (IH _ Hs).
Qed.

(** X14: whatever the text, [slugify] returns a slug: only characters of
    [[a-z0-9]] and dashes, no dash at the start, no dash at the end, and no
    two dashes in a row. *)
Theorem slugify_shape (str : string) :
  let slug := slugify str in
  Forall (fun c => is_slug_char c = true \/ c = dash) (list_ascii_of_string slug)
  /\ (forall rest, slug <> String dash rest)
  /\ (forall pre, slug <> pre +:+ String dash EmptyString)
  /\ (forall pre post, slug <> pre +:+ String dash (String dash post)).
Proof.
  cbv zeta. pose proof (slugify_is_slug str) as H. unfold is_slug in H.
  apply andb_prop in H as [Hsp Hend]. apply negb_true_iff in Hend.
  split; [now apply (sparse_chars true) |].
  split; [| split].
  - intros rest Heq. rewrite Heq in Hsp. discriminate Hsp.
  - intros pre. now apply ends_with_dash_suffix.
  - intros pre post. now apply (sparse_no_double true).
Qed.

Lemma replace_runs_fixed (b : bool) (s : string) :
  sparse b s = true -> replace_runs b s = s.
Proof.
  revert b. induction s as [| c r IH]; intros b Hs; [reflexivity |].
  cbn [sparse] in Hs. cbn [replace_runs]. destruct (is_slug_char c).
  - now rewrite (IH false Hs).
  - apply andb_prop in Hs as [Hs Hr]. apply andb_prop in Hs as [Hc Hb].
    apply negb_true_iff in Hb. subst b. apply Ascii.eqb_eq in Hc.
    now rewrite (IH true Hr), Hc.
Qed.

Lemma toLowerCase_fixed (b : bool) (s : string) :
  sparse b s = true -> toLowerCase s = s.
Proof.
  revert b. induction s as [| c r IH]; intros b Hs; [reflexivity |].
  cbn [sparse] in Hs. cbn [toLowerCase]. destruct (is_slug_char c) eqn:Ec.
  - rewrite (IH false Hs). f_equal. now apply slug_char_facts.
  - apply andb_prop in Hs as [Hs Hr]. apply andb_prop in Hs as [Hc _].
    apply Ascii.eqb_eq in Hc. rewrite (IH true Hr), Hc. reflexivity.
Qed.

Lemma drop_last_dash_fixed (s : string) :
  ends_with_dash s = false -> drop_last_dash s = s.
Proof.
  induction s as [| c r IH]; intros Hs; [reflexivity |].
  destruct r as [| c' r'].
  - cbn in *. now rewrite Hs.
  - change (String c (drop_last_dash (String c' r')) = String c (String c' r')).
    f_equal. apply IH. exact Hs.
Qed.

Lemma slugify_of_slug (s : string) : is_slug s = true -> slugify s = s.
Proof.
  unfold is_slug, slugify. intros H.
  apply andb_prop in H as [Hsp Hend]. apply negb_true_iff in Hend.
  rewrite (toLowerCase_fixed true s Hsp).
  rewrite (replace_runs_fixed false s (sparse_weaken true s Hsp)).
  destruct s as [| c r]; [reflexivity |]. cbn [trim_edge_dashes].
  destruct (Ascii.eqb_spec c dash) as [Heq | _].
  - rewrite Heq in Hsp. discriminate Hsp.
  - now apply drop_last_dash_fixed.
Qed.

(** X15: a slug is left as it is by [slugify], so applying [slugify] to its
    own result changes nothing. *)
Theorem slugify_idempotent (str : string) :
  (is_slug str = true -> slugify str = str)
  /\ slugify (slugify str) = slugify str.
Proof.
  split; [apply slugify_of_slug |].
  apply slugify_of_slug, slugify_is_slug.
Qed.

Lemma slugify_idempotent_witness :
  slugify "guwahati-railway-station" = "guwahati-railway-station".
Proof.
  apply (proj1 (slugify_idempotent "guwahati-railway-station")). reflexivity.
Defined.

(** X16: [hubToSlug] returns a slug for every hub name, with or without a
    parenthesised code, a comma or the word airport. *)
Theorem hubToSlug_shape (hubName : string) :
  let slug := hubToSlug hubName in
  Forall (fun c => is_slug_char c = true \/ c = dash) (list_ascii_of_string slug)
  /\ (forall rest, slug <> String dash rest)
  /\ (forall pre, slug <> pre +:+ String dash EmptyString)
  /\ (forall pre post, slug <> pre +:+ String dash (String dash post))
  /\ slugify slug = slug.
Proof.
  cbv zeta.
  assert (H : is_slug (hubToSlug hubName) = true).
  { unfold hubToSlug. destruct (_ && _); apply slugify_is_slug. }
  pose proof H as H'. unfold is_slug in H'.
  apply andb_prop in H' as [Hsp Hend]. apply negb_true_iff in Hend.
  split; [now apply (sparse_chars true) |].
  split; [| split; [| split]].
  - intros rest Heq. rewrite Heq in Hsp. discriminate Hsp.
  - intros pre. now apply ends_with_dash_suffix.
  - intros pre post. now apply (sparse_no_double true).
  - now apply slugify_of_slug.
Qed.

Lemma join_cons_char (sep : string) (c : ascii) (w : string) (l : list string) :
  join sep (String c w :: l) = String c (join sep (w :: l)).
Proof. destruct l; reflexivity. Qed.

Lemma split_cons_other (sep c : ascii) (r : string) :
  Ascii.eqb c sep = false ->
  exists w ws, split sep r = w :: ws /\ split sep (String c r) = String c w :: ws.
Proof.
  intros Hc. cbn [split]. rewrite Hc.
  destruct (split sep r) as [| w ws] eqn:E.
  - exfalso. destruct r as [| x r']; [discriminate E |].
    cbn [split] in E. destruct (Ascii.eqb x sep); [discriminate E |].
    destruct (split sep r'); discriminate E.
  - now exists w, ws.
Qed.

(** Inside a word of a slug: the words that follow are capitalised one by
    one, and joining them with spaces gives [cap]. *)
Lemma split_cap (s : string) :
  sparse false s = true ->
  ends_with_dash s = false ->
  exists w ws ws',
    split dash s = w :: ws
    /\ map_words ws = Some ws'
    /\ cap false s = join " " (w :: ws').
Proof.
  induction s as [| c r IH]; intros Hs Hend.
  - exists EmptyString, [], []. repeat split.
  - cbn [sparse] in Hs. destruct (is_slug_char c) eqn:Ec.
    + destruct (slug_char_facts c Ec) as (Hdash & _).
      assert (Hend' : ends_with_dash r = false).
      { destruct r; [reflexivity | exact Hend]. }
      destruct (IH Hs Hend') as (w & ws & ws' & Hsplit & Hwords & Hcap).
      destruct (split_cons_other dash c r Hdash) as (w0 & ws0 & H0 & H1).
      rewrite Hsplit in H0. injection H0 as <- <-.
      exists (String c w), ws, ws'. split; [exact H1 |]. split; [exact Hwords |].
      cbn [cap]. rewrite Hdash, Hcap. now rewrite join_cons_char.
    + apply andb_prop in Hs as [Hs Hr]. apply andb_prop in Hs as [Hc _].
      destruct r as [| c' r'].
      { cbn in Hend. rewrite Hc in Hend. discriminate Hend. }
      assert (Hend' : ends_with_dash (String c' r') = false) by exact Hend.
      destruct (IH (sparse_weaken true _ Hr) Hend')
        as (w & ws & ws' & Hsplit & Hwords & Hcap).
      cbn [sparse] in Hr. destruct (is_slug_char c') eqn:Ec';
        [| now rewrite Bool.andb_false_r in Hr].
      destruct (slug_char_facts c' Ec') as (Hdash' & _).
      destruct (split_cons_other dash c' r' Hdash') as (w0 & ws0 & H0 & H1).
      rewrite Hsplit in H1. injection H1 as -> ->.
      cbn [cap] in Hcap. rewrite Hdash', join_cons_char in Hcap.
      injection Hcap as Hcap.
      exists EmptyString, (String c' w0 :: ws0), (String (to_upper c') w0 :: ws').
      split; [| split].
      * cbn [split]. rewrite Hc. f_equal. exact Hsplit.
      * cbn [map_words capitalize]. now rewrite Hwords.
      * cbn [cap]. rewrite Hc, Hdash', Hcap.
        change (join " " (EmptyString :: String (to_upper c') w0 :: ws'))
          with (String space (join " " (String (to_upper c') w0 :: ws'))).
        now rewrite join_cons_char.
Qed.

Lemma cap_round_trip (b start : bool) (s : string) :
  sparse b s = true -> replace_runs b (toLowerCase (cap start s)) = s.
Proof.
  revert b start. induction s as [| c r IH]; intros b start Hs; [reflexivity |].
  cbn [sparse] in Hs. cbn [cap]. destruct (is_slug_char c) eqn:Ec.
  - destruct (slug_char_facts c Ec) as (Hdash & Hlow & Hlowup & Hcls).
    rewrite Hdash. cbn [toLowerCase replace_runs].
    destruct start.
    + rewrite Hcls, Hlowup. now rewrite (IH false false Hs).
    + rewrite Hlow, Ec. now rewrite (IH false false Hs).
  - apply andb_prop in Hs as [Hs Hr]. apply andb_prop in Hs as [Hc Hb].
    apply negb_true_iff in Hb. subst b. rewrite Hc.
    cbn [toLowerCase replace_runs].
    change (is_slug_char (to_lower space)) with false. cbn iota.
    rewrite (IH true true Hr). apply Ascii.eqb_eq in Hc. now rewrite Hc.
Qed.

Lemma slugToLabel_cap (slug : string) :
  is_slug slug = true ->
  slug <> EmptyString ->
  slugToLabel slug = Some (cap true slug) /\ slugify (cap true slug) = slug.
Proof.
  intros Hslug Hne. unfold is_slug in Hslug.
  apply andb_prop in Hslug as [Hsp Hend]. apply negb_true_iff in Hend.
  split.
  - destruct slug as [| c r]; [congruence |].
    cbn [sparse] in Hsp. destruct (is_slug_char c) eqn:Ec;
      [| now rewrite Bool.andb_false_r in Hsp].
    destruct (slug_char_facts c Ec) as (Hdash & _).
    assert (Hend' : ends_with_dash r = false).
    { destruct r; [reflexivity | exact Hend]. }
    destruct (split_cap r Hsp Hend') as (w & ws & ws' & Hsplit & Hwords & Hcap).
    destruct (split_cons_other dash c r Hdash) as (w0 & ws0 & H0 & H1).
    rewrite Hsplit in H0. injection H0 as <- <-.
    unfold slugToLabel. rewrite H1. cbn [map_words capitalize].
    rewrite Hwords. cbn [option_map cap]. rewrite Hdash, Hcap.
    now rewrite join_cons_char.
  - unfold slugify.
    rewrite (cap_round_trip false true slug (sparse_weaken true slug Hsp)).
    destruct slug as [| c r]; [reflexivity |]. cbn [trim_edge_dashes].
    destruct (Ascii.eqb_spec c dash) as [Heq | _].
    + rewrite Heq in Hsp. discriminate Hsp.
    + now apply drop_last_dash_fixed.
Qed.

(** X17: for the empty slug [slugToLabel] throws.  For every other slug it
    returns the label in which the dashes are spaces and every word begins
    with a capital, and [slugify] takes that label back to the slug. *)
Theorem slugToLabel_of_slug (slug : string) :
  is_slug slug = true ->
  (slug = EmptyString -> slugToLabel slug = None)
  /\ (slug <> EmptyString ->
      slugToLabel slug = Some (cap true slug)
      /\ slugify (cap true slug) = slug).
Proof.
  intros Hslug. split; [intros ->; reflexivity |].
  now apply slugToLabel_cap.
Qed.

Lemma slugToLabel_of_slug_witness :
  slugToLabel "guwahati-airport" = Some "Guwahati Airport"
  /\ slugify "Guwahati Airport" = "guwahati-airport".
Proof.
  apply (slugToLabel_of_slug "guwahati-airport"); [reflexivity | discriminate].
Defined.

(** X18: [slugToLabel] after [slugify]: on the slug of a text [slugToLabel]
    throws when that slug is empty, and otherwise returns a label whose slug
    is the slug of the text. *)
Theorem slugToLabel_slugify (str : string) :
  (slugify str = EmptyString -> slugToLabel (slugify str) = None)
  /\ (slugify str <> EmptyString ->
      exists label, slugToLabel (slugify str) = Some label
                    /\ slugify label = slugify str).
Proof.
  split.
  - intros ->. reflexivity.
  - intros Hne. exists (cap true (slugify str)).
    apply slugToLabel_cap; [apply slugify_is_slug | exact Hne].
Qed.

Lemma slugToLabel_slugify_witness :
  exists label,
    slugToLabel (slugify "Bagdogra Airport") = Some label
    /\ slugify label = slugify "Bagdogra Airport".
Proof.
  apply (slugToLabel_slugify "Bagdogra Airport"). discriminate.
Defined.

(* ------------------------------------------------------------------ *)
(** ** The share link *)
(* ------------------------------------------------------------------ *)

Lemma encode_byte_safe (c : ascii) :
  Forall (fun x => unreserved x = true \/ x = percent)
         (list_ascii_of_string (encode_byte c)).
Proof.
  assert (H : List.forallb (fun x => unreserved x || Ascii.eqb x percent)
                           (list_ascii_of_string (encode_byte c)) = true).
  { destruct c as [[] [] [] [] [] [] [] []]; vm_compute; reflexivity. }
  rewrite List.forallb_forall in H. apply List.Forall_forall.
  intros x Hx. apply H in Hx. apply Bool.orb_true_iff in Hx as [Hx | Hx].
  - now left.
  - right. now apply Ascii.eqb_eq.
Qed.

Lemma list_ascii_of_string_app (s t : string) :
  list_ascii_of_string (s +:+ t)
  = list_ascii_of_string s ++ list_ascii_of_string t.
Proof.
  induction s as [| c s IH]; [reflexivity |].
  change (c :: list_ascii_of_string (s +:+ t)
          = c :: list_ascii_of_string s ++ list_ascii_of_string t).
  now rewrite IH.
Qed.

Lemma encodeURIComponent_safe (text : string) :
  Forall (fun x => unreserved x = true \/ x = percent)
         (list_ascii_of_string (encodeURIComponent text)).
Proof.
  induction text as [| c r IH]; [constructor |].
  cbn [encodeURIComponent]. rewrite list_ascii_of_string_app.
  apply List.Forall_app. split; [apply encode_byte_safe | exact IH].
Qed.

Lemma percent_decode_byte (c : ascii) (rest : string) :
  percent_decode (encode_byte c +:+ rest) = String c (percent_decode rest).
Proof.
  destruct c as [[] [] [] [] [] [] [] []]; reflexivity.
Qed.

Lemma percent_decode_encode (text : string) :
  percent_decode (encodeURIComponent text) = text.
Proof.
  induction text as [| c r IH]; [reflexivity |].
  cbn [encodeURIComponent]. now rewrite percent_decode_byte, IH.
Qed.

(** X19: after its fixed beginning the share link holds only characters
    that [encodeURIComponent] leaves alone and percent signs; so no line
    break, space, ampersand or hash of the itinerary reaches the link as
    such. *)
Theorem getWhatsAppShareUrl_safe (text : string) :
  exists query,
    getWhatsAppShareUrl text = "https://wa.me/?text=" +:+ query
    /\ Forall (fun x => unreserved x = true \/ x = percent)
              (list_ascii_of_string query)
    /\ (forall x, In x [ascii_of_nat 10; " "; "&"; "#"]%char ->
                  ~ In x (list_ascii_of_string query)).
Proof.
  exists (encodeURIComponent text). split; [reflexivity |].
  pose proof (encodeURIComponent_safe text) as Hsafe.
  split; [exact Hsafe |].
  intros x Hx Hin. rewrite List.Forall_forall in Hsafe.
  assert (Hbad : unreserved x = false /\ x <> percent).
  { cbn [In] in Hx. destruct Hx as [<- | [<- | [<- | [<- | []]]]];
      (split; [vm_compute; reflexivity | discriminate]). }
  destruct Hbad as [Hu Hp]. destruct (Hsafe x Hin) as [H | H]; congruence.
Qed.

Lemma append_cancel (p a b : string) : p +:+ a = p +:+ b -> a = b.
Proof.
  induction p as [| c p IH]; [trivial |].
  intros H. apply IH.
  change (String c (p +:+ a) = String c (p +:+ b)) in H. congruence.
Qed.

(** X20: the share link determines the text: two texts with the same link
    are the same text, since decoding the percent signs of the link gives the
    text back. *)
Theorem getWhatsAppShareUrl_injective (text1 text2 : string) :
  percent_decode (encodeURIComponent text1) = text1
  /\ (getWhatsAppShareUrl text1 = getWhatsAppShareUrl text2 -> text1 = text2).
Proof.
  split; [apply percent_decode_encode |].
  unfold getWhatsAppShareUrl. intros H.
  assert (He : encodeURIComponent text1 = encodeURIComponent text2)
    by exact (append_cancel _ _ _ H).
  rewrite <- (percent_decode_encode text1), <- (percent_decode_encode text2).
  now rewrite He.
Qed.

Lemma getWhatsAppShareUrl_injective_witness :
  percent_decode (encodeURIComponent (join newline [title_line; footer_line]))
  = join newline [title_line; footer_line]
  /\ title_line = title_line.
Proof.
  destruct (getWhatsAppShareUrl_injective title_line title_line) as [_ Hinj].
  split.
  - apply (getWhatsAppShareUrl_injective
             (join newline [title_line; footer_line]) EmptyString).
  - apply Hinj. reflexivity.
Defined.

(** X21: when the share button of the sidebar opens a link, the link is the
    fixed beginning followed by a query that decodes to the itinerary of the
    cart, with its groups, the selected hub and the total of the cart. *)
Theorem handleShare_link (s : Store) (url : string) :
  handleShare s = Some url ->
  exists query,
    url = "https://wa.me/?text=" +:+ query
    /\ percent_decode query
       = formatItineraryForWhatsApp (grouping (cartItems s)) (selectedHub s)
           (totalDriveMins (cartItems s) (selectedHub s)).
Proof.
  unfold handleShare. rewrite groupedByState_run.
  destruct (List.existsb inherited_state (cartItems s)); [discriminate |].
  intros [= <-]. eexists. split; [reflexivity |].
  apply percent_decode_encode.
Qed.

Lemma handleShare_link_witness :
  exists query,
    getWhatsAppShareUrl
      (formatItineraryForWhatsApp [("Assam", [sample_P1])] "Guwahati Airport" 30)
    = "https://wa.me/?text=" +:+ query
    /\ percent_decode query
       = formatItineraryForWhatsApp (grouping [sample_P1]) "Guwahati Airport"
           (totalDriveMins [sample_P1] "Guwahati Airport").
Proof.
  apply (handleShare_link (store busy_world)). reflexivity.
Defined.

(* ------------------------------------------------------------------ *)
(** ** The range of the distance *)
(* ------------------------------------------------------------------ *)

Section HaversineRange.
Local Open Scope R_scope.

Lemma cos_of_latitude (lat : R) :
  -90 <= lat <= 90 -> 0 <= cos ((lat * PI) / 180).
Proof.
  intros [Hlo Hhi]. pose proof PI_RGT_0 as Hpi.
  apply cos_ge_0.
  - replace (- (PI / 2)) with ((-90 * PI) / 180) by field.
    unfold Rdiv. apply Rmult_le_compat_r; [lra |].
    apply Rmult_le_compat_r; lra.
  - replace (PI / 2) with ((90 * PI) / 180) by field.
    unfold Rdiv. apply Rmult_le_compat_r; [lra |].
    apply Rmult_le_compat_r; lra.
Qed.

Lemma sin_sq_half (x y : R) :
  2 * (sin (((x - y) * PI / 180) / 2) * sin (((x - y) * PI / 180) / 2))
  = 1 - (cos (x * PI / 180) * cos (y * PI / 180)
         + sin (x * PI / 180) * sin (y * PI / 180)).
Proof.
  rewrite <- cos_minus.
  replace (x * PI / 180 - y * PI / 180)
    with (2 * (((x - y) * PI / 180) / 2)) by field.
  rewrite cos_2a_sin. ring.
Qed.

Lemma haversine_a_range (lat1 lon1 lat2 lon2 : R) :
  -90 <= lat1 <= 90 -> -90 <= lat2 <= 90 ->
  0 <= haversine_a lat1 lon1 lat2 lon2 <= 1.
Proof.
  intros H1 H2. unfold haversine_a.
  pose proof (cos_of_latitude lat1 H1) as Hc1.
  pose proof (cos_of_latitude lat2 H2) as Hc2.
  pose proof (sin_sq_half lat2 lat1) as Hhalf.
  pose proof (cos_plus (lat1 * PI / 180) (lat2 * PI / 180)) as Hplus.
  pose proof (COS_bound (lat1 * PI / 180 + lat2 * PI / 180)) as [_ Hle].
  set (S := sin (((lat2 - lat1) * PI / 180) / 2)) in *.
  set (T := sin (((lon2 - lon1) * PI / 180) / 2)) in *.
  pose proof (SIN_bound (((lon2 - lon1) * PI / 180) / 2)) as [HTlo HThi].
  fold T in HTlo, HThi.
  set (c1 := cos (lat1 * PI / 180)) in *. set (c2 := cos (lat2 * PI / 180)) in *.
  set (s1 := sin (lat1 * PI / 180)) in *. set (s2 := sin (lat2 * PI / 180)) in *.
  replace (S ^ 2) with (S * S) by ring. replace (T ^ 2) with (T * T) by ring.
  assert (HT0 : 0 <= T * T) by nra.
  assert (HT1 : T * T <= 1) by nra.
  assert (HC : 0 <= c1 * c2) by nra.
  assert (HS0 : 0 <= S * S) by nra.
  assert (HCT : 0 <= c1 * c2 * (T * T) <= c1 * c2) by nra.
  split; nra.
Qed.

Lemma asin_nonneg (y : R) : 0 <= y <= 1 -> 0 <= asin y.
Proof.
  intros [Hlo Hhi].
  destruct (Rle_or_lt 0 (asin y)) as [H | H]; [exact H | exfalso].
  pose proof (asin_bound y) as [Hb _]. pose proof PI_RGT_0 as Hpi.
  assert (Hsin : sin (asin y) < 0) by (apply sin_lt_0_var; lra).
  rewrite sin_asin in Hsin by lra. lra.
Qed.

(** X22: over the real numbers and for latitudes between -90 and 90 degrees,
    the quantity under the square root of [haversine] lies between 0 and 1
    (so the square root and the arc sine are taken inside their domains), and
    the distance lies between 0 and half the circumference, 6371 * PI
    kilometres. *)
Theorem haversine_range (lat1 lon1 lat2 lon2 : R) :
  -90 <= lat1 <= 90 -> -90 <= lat2 <= 90 ->
  Proximity.haversine lat1 lon1 lat2 lon2
  = 6371 * 2 * asin (sqrt (haversine_a lat1 lon1 lat2 lon2))
  /\ 0 <= haversine_a lat1 lon1 lat2 lon2 <= 1
  /\ 0 <= Proximity.haversine lat1 lon1 lat2 lon2 <= 6371 * PI.
Proof.
  intros H1 H2.
  pose proof (haversine_a_range lat1 lon1 lat2 lon2 H1 H2) as [Ha0 Ha1].
  split; [reflexivity |]. split; [now split |].
  change (Proximity.haversine lat1 lon1 lat2 lon2)
    with (6371 * 2 * asin (sqrt (haversine_a lat1 lon1 lat2 lon2))).
  assert (Hroot : 0 <= sqrt (haversine_a lat1 lon1 lat2 lon2) <= 1).
  { split; [apply sqrt_pos |]. rewrite <- sqrt_1. now apply sqrt_le_1_alt. }
  pose proof (asin_nonneg _ Hroot) as Hlo.
  pose proof (asin_bound (sqrt (haversine_a lat1 lon1 lat2 lon2))) as [_ Hhi].
  split; lra.
Qed.

Lemma haversine_range_witness :
  0 <= Proximity.haversine 26 91 25 92 <= 6371 * PI.
Proof.
  apply (haversine_range 26 91 25 92); lra.
Defined.

End HaversineRange.
